(** * Booktures ingest: the page-cleaning pipeline of [pdf_service.py]

    A shallow embedding of [PDFService._normalize_line],
    [_strip_recurring_edges], [_is_noise_page], [_preprocess_pages] and the
    preprocessing switch of [extract_text_by_page], with the properties the
    specification states about them.

    Text model.  A Python [str] is a list of characters; a character is a
    code point below 256 (the type [ascii], read as Latin-1).  On that range
    the tables below are the ones CPython uses: [str.isspace] / the regex
    class [\s], the line boundaries of [str.splitlines], and [str.lower].
    Python [int] is [Z]; the one floating-point expression of the module,
    [len(pages) * 0.2], is computed on binary64 primitive floats. *)

From Stdlib Require Import ZArith Ascii String Floats Uint63 Sorted DecimalString.
From Stdlib Require Import Strings.Byte.
From stdpp Require Import base decidable option list gmap strings.

Local Open Scope Z_scope.

(** ** Characters and strings *)

Abbreviation str := (list ascii).

Definition code (c : ascii) : N := N_of_ascii c.

Definition between (lo hi : N) (c : ascii) : bool :=
  ((lo <=? code c) && (code c <=? hi))%N.

(** [str.isspace] on one character; also the regex class [\s]. *)
Definition isspace (c : ascii) : bool :=
  between 9 13 c || between 28 32 c || (code c =? 133)%N || (code c =? 160)%N.

(** The line boundaries [str.splitlines] splits on. *)
Definition is_linebreak (c : ascii) : bool :=
  between 10 13 c || between 28 30 c || (code c =? 133)%N.

(** [str.lower] on one character. *)
Definition lower_char (c : ascii) : ascii :=
  if between 65 90 c || (between 192 222 c && negb (code c =? 215)%N)
  then ascii_of_N (code c + 32)
  else c.

Definition lower (s : str) : str := map lower_char s.

(** Removal of the longest prefix (suffix) whose items all satisfy [f]. *)
Fixpoint drop_while {A} (f : A -> bool) (l : list A) : list A :=
  match l with
  | x :: r => if f x then drop_while f r else l
  | [] => []
  end.

Definition drop_while_end {A} (f : A -> bool) (l : list A) : list A :=
  rev (drop_while f (rev l)).

Definition lstrip (s : str) : str := drop_while isspace s.
Definition rstrip (s : str) : str := drop_while_end isspace s.

(** [s.strip()] *)
Definition strip (s : str) : str := rstrip (lstrip s).

Definition SP : ascii := " "%char.
Definition LF : ascii := "010"%char.
Definition CR : ascii := "013"%char.

(** [re.sub(r"\s+", " ", s)]: every maximal run of whitespace becomes one
    space.  [in_run] says that the previous character was whitespace, so the
    run's space has been written already. *)
Fixpoint sub_ws_from (in_run : bool) (s : str) : str :=
  match s with
  | [] => []
  | c :: r =>
      if isspace c
      then (if in_run then sub_ws_from true r else SP :: sub_ws_from true r)
      else c :: sub_ws_from false r
  end.

Definition sub_ws (s : str) : str := sub_ws_from false s.

(** The class [[a-z0-9 ]]; [re.sub(r"[^a-z0-9 ]", "", s)] keeps exactly it. *)
Definition is_key_char (c : ascii) : bool :=
  between 97 122 c || between 48 57 c || (code c =? 32)%N.

Definition sub_non_key (s : str) : str := List.filter is_key_char s.

(** The class [[a-zA-Z']]. *)
Definition is_word_char (c : ascii) : bool :=
  between 97 122 c || between 65 90 c || (code c =? 39)%N.

(** [re.findall(r"[a-zA-Z']+", s)]: the scan keeps the match in progress,
    reversed, in [cur]; a match ends at the first character outside the class
    or at the end of the string. *)
Definition flush (cur : str) : list str :=
  match cur with [] => [] | _ => [rev cur] end.

Fixpoint findall_words_from (cur : str) (s : str) : list str :=
  match s with
  | [] => flush cur
  | c :: r =>
      if is_word_char c then findall_words_from (c :: cur) r
      else flush cur ++ findall_words_from [] r
  end.

Definition findall_words (s : str) : list str := findall_words_from [] s.

(** [s.splitlines()]: a line ends at a line boundary ([\r\n] is one
    boundary); the text after the last boundary is a line only when it is
    not empty. *)
Fixpoint splitlines_from (cur : str) (s : str) : list str :=
  match s with
  | [] => flush cur
  | c :: r =>
      if is_linebreak c then
        rev cur ::
          match r with
          | c' :: r' =>
              if (code c =? 13)%N && (code c' =? 10)%N
              then splitlines_from [] r'
              else splitlines_from [] r
          | [] => splitlines_from [] r
          end
      else splitlines_from (c :: cur) r
  end.

Definition splitlines (s : str) : list str := splitlines_from [] s.

(** ["\n".join(lines)] *)
Fixpoint join_lines (lines : list str) : str :=
  match lines with
  | [] => []
  | [l] => l
  | l :: rest => l ++ LF :: join_lines rest
  end.

(** [kw in s] for strings: [kw] occurs in [s] as a contiguous substring. *)
Fixpoint starts_with (kw s : str) : bool :=
  match kw, s with
  | [], _ => true
  | k :: kw', c :: s' => bool_decide (k = c) && starts_with kw' s'
  | _ :: _, [] => false
  end.

Fixpoint contains (kw s : str) : bool :=
  starts_with kw s ||
  match s with
  | [] => false
  | _ :: s' => contains kw s'
  end.

Definition lit (s : string) : str := list_ascii_of_string s.

(** ** Exceptions *)

Inductive exn : Set := IndexError | OverflowError | ValueError | FileNotFoundError.

Inductive result (A : Type) : Type :=
  | Ok (a : A)
  | Raise (e : exn).
Arguments Ok {A} a.
Arguments Raise {A} e.

#[global] Instance result_ret : MRet result := fun A a => Ok a.
#[global] Instance result_bind : MBind result := fun A B f m =>
  match m with Ok a => f a | Raise e => Raise e end.
#[global] Instance result_fmap : FMap result := fun A B f m =>
  match m with Ok a => Ok (f a) | Raise e => Raise e end.

(** [l[i]] for an index that is not negative. *)
Definition list_get {A} (l : list A) (i : nat) : result A :=
  match l !! i with Some x => Ok x | None => Raise IndexError end.

(** ** Numbers *)

(** [float(n)] for a length [n]: a list holds at most [sys.maxsize = 2^63-1]
    items, so the length is a 63-bit integer; the conversion rounds to
    nearest-even. *)
Definition float_of_len (n : nat) : float :=
  PrimFloat.of_uint63 (Uint63.of_Z (Z.of_nat n)).

(** [int(x)]: truncation toward zero; infinities and NaN raise. *)
Definition int_of_float (x : float) : result Z :=
  match Prim2SF x with
  | S754_zero _ => Ok 0
  | S754_infinity _ => Raise OverflowError
  | S754_nan => Raise ValueError
  | S754_finite s m e =>
      let mag := if (0 <=? e) then Z.shiftl (Z.pos m) e else Z.shiftr (Z.pos m) (- e) in
      Ok (if s then - mag else mag)
  end.

(** ** Pages *)

Record page : Type := Page { page_number : Z; text : str }.

#[global] Instance page_eq_dec : EqDecision page.
Proof. solve_decision. Defined.

(** ** [_normalize_line] *)

Definition _normalize_line (line : str) : str :=
  let normalized := sub_ws (lower (strip line)) in
  let normalized := sub_non_key normalized in
  strip normalized.

(** ** [_strip_recurring_edges] *)

(** [while cleaned and self._normalize_line(cleaned[0]) in recurring_headers:
    cleaned.pop(0)] *)
Fixpoint pop_front_while (recurring_headers : gset str) (cleaned : list str) : list str :=
  match cleaned with
  | [] => []
  | first :: rest =>
      if decide (_normalize_line first ∈ recurring_headers)
      then pop_front_while recurring_headers rest
      else cleaned
  end.

(** [while cleaned and self._normalize_line(cleaned[-1]) in recurring_footers:
    cleaned.pop()]; every iteration shortens [cleaned], so [length cleaned]
    iterations are enough ([pop_back_while_exit] below). *)
Fixpoint pop_back_loop (recurring_footers : gset str) (fuel : nat) (cleaned : list str)
  : list str :=
  match fuel with
  | O => cleaned
  | S fuel' =>
      match last cleaned with
      | None => cleaned
      | Some final =>
          if decide (_normalize_line final ∈ recurring_footers)
          then pop_back_loop recurring_footers fuel' (removelast cleaned)
          else cleaned
      end
  end.

Definition pop_back_while (recurring_footers : gset str) (cleaned : list str) : list str :=
  pop_back_loop recurring_footers (length cleaned) cleaned.

Definition _strip_recurring_edges
    (lines : list str) (recurring_headers recurring_footers : gset str) : list str :=
  match lines with
  | [] => lines
  | _ =>
      let cleaned := lines in
      let cleaned := pop_front_while recurring_headers cleaned in
      let cleaned := pop_back_while recurring_footers cleaned in
      cleaned
  end.

(** ** [_is_noise_page] *)

Definition front_matter_keywords : list str :=
  map lit
    ["preface"; "about the author"; "copyright"; "all rights reserved";
     "table of contents"; "contents"; "acknowledg"; "dedication"; "isbn";
     "published by"; "index"]%string.

Definition len {A} (l : list A) : Z := Z.of_nat (length l).

Definition word_count_of (lowered : str) : Z := len (findall_words lowered).

Definition keyword_hits_of (lowered : str) : Z :=
  len (List.filter (fun kw => contains kw lowered) front_matter_keywords).

Definition _is_noise_page (page : page) (logical_position : Z) : bool :=
  let text := strip (text page) in
  match text with
  | [] => true
  | _ =>
      let lowered := lower text in
      let word_count := word_count_of lowered in
      if word_count <? 20 then true
      else
        let keyword_hits := keyword_hits_of lowered in
        if (logical_position <=? 15) && (1 <=? keyword_hits) && (word_count <? 220)
        then true
        else false
  end.

(** ** [_preprocess_pages] *)

(** [[ln.strip() for ln in text.splitlines() if ln.strip()]] *)
Definition nonblank_lines (text : str) : list str :=
  map strip (List.filter (fun ln => negb (bool_decide (strip ln = []))) (splitlines text)).

(** [counts[key] = counts.get(key, 0) + 1] *)
Definition bump (key : str) (counts : gmap str Z) : gmap str Z :=
  <[key := default 0 (counts !! key) + 1]> counts.

(** The state of the first loop. *)
Record scan_state : Type := Scan {
  header_counts : gmap str Z;
  footer_counts : gmap str Z;
  page_lines : list (list str)
}.

Definition scan_init : scan_state := Scan ∅ ∅ [].

(** One iteration of [for page in pages:] (lines 83-92). *)
Definition scan_step (st : scan_state) (page : page) : scan_state :=
  let lines := nonblank_lines (text page) in
  let page_lines := page_lines st ++ [lines] in
  match lines with
  | [] => Scan (header_counts st) (footer_counts st) page_lines
  | first :: _ =>
      let head := _normalize_line first in
      let tail := _normalize_line (List.last lines first) in
      let header_counts :=
        match head with [] => header_counts st | _ => bump head (header_counts st) end in
      let footer_counts :=
        match tail with [] => footer_counts st | _ => bump tail (footer_counts st) end in
      Scan header_counts footer_counts page_lines
  end.

Definition scan (pages : list page) : scan_state := foldl scan_step scan_init pages.

(** [max(3, int(len(pages) * 0.2))]; the literal [0.2] denotes the binary64
    number [0x1.999999999999ap-3]. *)
Definition recurring_threshold_of (n : nat) : result Z :=
  Z.max 3 <$> int_of_float (float_of_len n * 0x1.999999999999ap-3)%float.

(** [{k for k, v in counts.items() if v >= recurring_threshold}] *)
Definition recurring_keys (counts : gmap str Z) (recurring_threshold : Z) : gset str :=
  dom (filter (fun kv => recurring_threshold ≤ kv.2) counts).

Section Pipeline.

(** The classifier the second loop calls, [self._is_noise_page]. *)
Variable is_noise_page : page -> Z -> bool.

(** [for idx, page in enumerate(pages):] (lines 99-109), from iteration
    [idx] on, with the pages still to visit and the list built so far. *)
Fixpoint clean_loop
    (page_lines : list (list str)) (recurring_headers recurring_footers : gset str)
    (idx : nat) (pages : list page) (cleaned_pages : list page) : result (list page) :=
  match pages with
  | [] => Ok cleaned_pages
  | page :: rest =>
      lines ← list_get page_lines idx;
      let lines := _strip_recurring_edges lines recurring_headers recurring_footers in
      let text := strip (join_lines lines) in
      let candidate := Page (page_number page) text in
      if is_noise_page candidate (Z.of_nat idx + 1)
      then clean_loop page_lines recurring_headers recurring_footers (S idx) rest cleaned_pages
      else
        match text with
        | [] =>
            clean_loop page_lines recurring_headers recurring_footers (S idx) rest cleaned_pages
        | _ =>
            clean_loop page_lines recurring_headers recurring_footers (S idx) rest
              (cleaned_pages ++ [candidate])
        end
  end.

(** The list [cleaned_pages] at line 111, before the fallback. *)
Definition filter_pages (pages : list page) : result (list page) :=
  let st := scan pages in
  recurring_threshold ← recurring_threshold_of (length pages);
  let recurring_headers := recurring_keys (header_counts st) recurring_threshold in
  let recurring_footers := recurring_keys (footer_counts st) recurring_threshold in
  clean_loop (page_lines st) recurring_headers recurring_footers 0 pages [].

Definition preprocess_pages_with (pages : list page) : result (list page) :=
  match pages with
  | [] => Ok pages
  | _ =>
      cleaned_pages ← filter_pages pages;
      Ok (match cleaned_pages with [] => pages | _ => cleaned_pages end)
  end.

End Pipeline.

Definition _preprocess_pages (pages : list page) : result (list page) :=
  preprocess_pages_with _is_noise_page pages.

(** ** [extract_text_by_page] *)

(** [os.getenv("ENABLE_TEXT_PREPROCESSING", "true").lower() == "true"] *)
Definition ENABLE_TEXT_PREPROCESSING (getenv : option str) : bool :=
  bool_decide (lower (default (lit "true") getenv) = lit "true").

(** The raw pages of lines 55-64: [extracted] holds what
    [page.extract_text()] returned for each page of the file, in order
    ([None] where it returned [None]). *)
Fixpoint raw_pages_from (idx : nat) (extracted : list (option str)) : list page :=
  match extracted with
  | [] => []
  | t :: rest =>
      Page (Z.of_nat idx + 1) (strip (default [] t)) :: raw_pages_from (S idx) rest
  end.

(** Lines 66-73, the operation the caller sees: the switch
    [ENABLE_TEXT_PREPROCESSING], then [_preprocess_pages]. *)
Definition clean (enable_text_preprocessing : bool) (raw_pages : list page)
  : result (list page) :=
  if negb enable_text_preprocessing then Ok raw_pages
  else _preprocess_pages raw_pages.

(** [pdf] is what is stored at [pdf_path]: [None] when the path does not
    exist. *)
Definition extract_text_by_page
    (enable_text_preprocessing : bool) (pdf : option (list (option str)))
  : result (list page) :=
  match pdf with
  | None => Raise FileNotFoundError
  | Some extracted => clean enable_text_preprocessing (raw_pages_from 0 extracted)
  end.

(** ** Notions used in the statements *)

(** [s] has no whitespace at either end: [s.strip() == s]. *)
Definition trimmed (s : str) : Prop := lstrip s = s /\ rstrip s = s.

(** [line] normalizes to a member of [keys]: the test of both loops of
    [_strip_recurring_edges]. *)
Definition in_keys (keys : gset str) (line : str) : bool :=
  bool_decide (_normalize_line line ∈ keys).

(** The number of maximal runs of characters of the class [f] in [s]: a run
    starts at a character of the class that does not follow one ([inside]
    says whether the previous character was of the class). *)
Fixpoint count_runs (f : ascii -> bool) (inside : bool) (s : str) : nat :=
  match s with
  | [] => O
  | c :: r =>
      if f c then ((if inside then 0 else 1) + count_runs f true r)%nat
      else count_runs f false r
  end.

(** The word-tokens of a text: maximal runs of ASCII letters and
    apostrophes. *)
Definition token_count (s : str) : Z := Z.of_nat (count_runs is_word_char false s).

(** A keyword the classifier can test on the stripped text as well as on the
    text: it is not empty and has no whitespace at either end. *)
Definition edges_not_space (kw : str) : bool :=
  match kw with
  | [] => false
  | k :: _ => negb (isspace k) && negb (isspace (List.last kw k))
  end.

(** The two sets of lines 95-96, for the threshold [thr]. *)
Definition recurring_headers (pages : list page) (thr : Z) : gset str :=
  recurring_keys (header_counts (scan pages)) thr.
Definition recurring_footers (pages : list page) (thr : Z) : gset str :=
  recurring_keys (footer_counts (scan pages)) thr.

(** The key of a page's first (last) non-blank line, when it has one. *)
Definition head_key (p : page) : option str :=
  _normalize_line <$> head (nonblank_lines (text p)).
Definition tail_key (p : page) : option str :=
  _normalize_line <$> last (nonblank_lines (text p)).

(** On how many pages [k] is the key [key_of] finds. *)
Definition occurrences (key_of : page -> option str) (k : str) (pages : list page) : Z :=
  len (List.filter (fun p => bool_decide (key_of p = Some k)) pages).

(** The entry a count table must hold for [k] after the first loop: none
    for the empty key and for a key that was never seen, else the number of
    pages that show it. *)
Definition count_entry (key_of : page -> option str) (k : str) (pages : list page)
  : option Z :=
  match k with
  | [] => None
  | _ => let n := occurrences key_of k pages in if n =? 0 then None else Some n
  end.

(** The candidate built from a page at lines 100-104. *)
Definition candidate_of (H F : gset str) (p : page) : page :=
  Page (page_number p)
    (strip (join_lines (_strip_recurring_edges (nonblank_lines (text p)) H F))).

(** What the second loop does with the page it visits at iteration [idx],
    for a classifier [classify]: the candidate it appends, if any. *)
Definition verdict (classify : page -> Z -> bool) (H F : gset str) (idx : nat) (p : page)
  : option page :=
  let candidate := candidate_of H F p in
  if classify candidate (Z.of_nat idx + 1) then None
  else match text candidate with [] => None | _ => Some candidate end.

(** By how many bits binary64 rounding shifts the mantissa [m] at exponent
    [e]. *)
Definition shift_of (m e : Z) : Z := Z.max 0 (fexp prec emax (Zdigits2 m + e) - e).

(** [l] holds no line boundary. *)
Definition no_linebreak (l : str) : bool := forallb (fun c => negb (is_linebreak c)) l.

(** What every item of [nonblank_lines] is: a line that is not empty, has
    no whitespace at either end and holds no line boundary. *)
Definition clean_line (l : str) : Prop :=
  l <> [] /\ trimmed l /\ no_linebreak l = true.

(** ** Documents of the examples *)

Definition twenty_words : str := lit "a b c d e f g h i j k l m n o p q r s t".

(** Ten pages, each with the first line [Chapter Title] and the last line
    [Page Footer]. *)
Definition doc10 : list page :=
  map (fun i => Page i (lit "Chapter Title" ++ LF :: twenty_words ++ LF :: lit "Page Footer"))
    [1; 2; 3; 4; 5; 6; 7; 8; 9; 10].

(** Five pages; the line [Seen twice] opens two of them. *)
Definition doc5 : list page :=
  [Page 1 (lit "Seen twice" ++ LF :: twenty_words);
   Page 2 (lit "One" ++ LF :: twenty_words);
   Page 3 (lit "Seen twice" ++ LF :: twenty_words);
   Page 4 (lit "Two" ++ LF :: twenty_words);
   Page 5 (lit "Three" ++ LF :: twenty_words)].

(** Three pages with the same first and last line; the third has nothing
    else. *)
Definition doc3 : list page :=
  [Page 1 (lit "Header" ++ LF :: twenty_words ++ LF :: lit "Footer");
   Page 2 (lit "Header" ++ LF :: lit "more " ++ twenty_words ++ LF :: lit "Footer");
   Page 3 (lit "Header" ++ LF :: lit "Footer")].

(** Sixteen pages of one line each, all different: the first is blank, the
    last mentions an index. *)
Definition doc16 : list page :=
  Page 1 []
  :: map (fun i => Page (Z.of_nat i) (twenty_words ++ SP :: replicate i "x"%char)) (seq 2 14)
  ++ [Page 16 (lit "index " ++ twenty_words)].

(** A page of fifty words that announces a table of contents. *)
Definition contents_page : page :=
  Page 3 (lit "table of contents " ++ twenty_words ++ SP :: twenty_words
          ++ lit " one two three four five six seven").

(** ** Upload: [save_pdf] and the route [upload_pdf]

    What the two functions take from outside is gathered in an
    [environment]: the configuration read at import, [pathlib], [uuid],
    [pdfplumber] and the database.  Files are a map from paths to
    contents, and [file.read], [os.makedirs], [open] and [write] are taken to
    succeed;
    the session's calls are recorded in order, and any of them may raise. *)

Abbreviation bytes := (list Byte.byte).

#[global] Instance byte_eq_dec : EqDecision Byte.byte := Byte.byte_eq_dec.

(** An exception as a handler sees it: whether its class is [ValueError]
    or a subclass of it, and [str(e)]. *)
Record raised : Type := Raised { is_value_error : bool; message : str }.

Inductive answer (A : Type) : Type :=
  | Value (a : A)
  | Error (e : raised).
Arguments Value {A} a.
Arguments Error {A} e.

(** The rows the route adds. *)
Record Book : Type := MkBook {
  book_title : str;
  book_author : str;
  book_total_pages : Z;
  book_description : str
}.

Record PageRow : Type := MkPageRow {
  row_book_id : Z;
  row_page_number : Z;
  row_text : str;
  row_pdf_path : str
}.

(** The calls on the session [db]. *)
Inductive db_call : Type :=
  | Add_book (b : Book)
  | Flush
  | Add_page (r : PageRow)
  | Commit
  | Rollback.

Record environment : Type := Environment {
  (** [int(os.getenv("MAX_PDF_SIZE_MB", "100"))] *)
  MAX_FILE_SIZE_MB : Z;
  (** [Path(filename).suffix] *)
  path_suffix : str -> str;
  (** [str(PDF_STORAGE_PATH / name)] *)
  storage_path : str -> str;
  (** [str(uuid.uuid4())] at this call *)
  uuid4 : str;
  (** the value of [ENABLE_TEXT_PREPROCESSING] *)
  text_preprocessing : bool;
  (** [pdfplumber.open] on a file's content, then [extract_text()] on each
      of its pages; or the exception it raises *)
  pdfplumber_open : bytes -> answer (list (option str));
  (** [book.id] once the book is flushed *)
  new_book_id : Z;
  (** whether the last call of a sequence of session calls raises *)
  db_raises : list db_call -> option raised
}.

Definition MAX_FILE_SIZE_BYTES (env : environment) : Z := MAX_FILE_SIZE_MB env * 1024 * 1024.

Definition ALLOWED_EXTENSIONS : gset str := {[ lit ".pdf" ]}.

(** [b"%PDF"] *)
Definition PDF_SIGNATURE : bytes := [Byte.x25; Byte.x50; Byte.x44; Byte.x46].

(** [s.startswith(prefix)] *)
Fixpoint startswith {A} `{EqDecision A} (prefix s : list A) : bool :=
  match prefix, s with
  | [], _ => true
  | a :: prefix', b :: s' => bool_decide (a = b) && startswith prefix' s'
  | _ :: _, [] => false
  end.

(** [str(n)] for an integer. *)
Definition str_of_int (n : Z) : str := lit (NilZero.string_of_int (Z.to_int n)).

Definition value_error (msg : str) : raised := Raised true msg.

Definition files := gmap str bytes.

(** [save_pdf]: the answer and the files after the call. *)
Definition save_pdf (env : environment) (file_bytes : bytes) (filename : str) (fs : files)
  : answer str * files :=
  if MAX_FILE_SIZE_BYTES env <? len file_bytes then
    (Error (value_error
              (lit "File too large (> " ++ str_of_int (MAX_FILE_SIZE_MB env) ++ lit "MB)")),
     fs)
  else
    let ext := lower (path_suffix env filename) in
    if negb (bool_decide (ext ∈ ALLOWED_EXTENSIONS)) then
      (Error (value_error (lit "Only PDF files are allowed")), fs)
    else if negb (startswith PDF_SIGNATURE file_bytes) then
      (Error (value_error (lit "File is not a valid PDF")), fs)
    else
      let unique_name := uuid4 env ++ lit "_" ++ filename in
      let path := storage_path env unique_name in
      (Value path, <[path := file_bytes]> fs).

(** The exceptions of the pipeline as a handler sees them. *)
Definition raised_of (e : exn) (pdf_path : str) : raised :=
  match e with
  | ValueError => Raised true (lit "cannot convert float NaN to integer")
  | OverflowError => Raised false (lit "cannot convert float infinity to integer")
  | IndexError => Raised false (lit "list index out of range")
  | FileNotFoundError => Raised false (lit "PDF not found: " ++ pdf_path)
  end.

(** [pdf_service.extract_text_by_page(pdf_path)] on the files [fs]. *)
Definition extract_text_by_page_at (env : environment) (fs : files) (pdf_path : str)
  : answer (list page) :=
  let opened :=
    match fs !! pdf_path with
    | None => Value None
    | Some content =>
        match pdfplumber_open env content with
        | Value texts => Value (Some texts)
        | Error e => Error e
        end
    end in
  match opened with
  | Error e => Error e
  | Value pdf =>
      match extract_text_by_page (text_preprocessing env) pdf with
      | Ok pages => Value pages
      | Raise e => Error (raised_of e pdf_path)
      end
  end.

(** [error_payload] *)
Record error_body : Type := ErrorBody {
  error_code : str;
  error_message : str;
  error_details : option str
}.

Definition error_payload (code message : str) (details : option str) : error_body :=
  ErrorBody code message details.

(** The dictionary the route returns. *)
Record upload_response : Type := UploadResponse {
  resp_book_id : Z;
  resp_title : str;
  resp_author : str;
  resp_total_pages : Z;
  resp_pdf_path : str;
  resp_message : str
}.

(** How a request ends: the returned dictionary, an [HTTPException], or an
    exception that leaves the route as it is. *)
Inductive outcome : Type :=
  | Returned (r : upload_response)
  | HTTPException (status_code : Z) (detail : error_body)
  | Propagated (e : raised).

(** [s.replace(old, new)] for an [old] that is not empty: the occurrences
    are replaced from the left and do not overlap; [skip] counts the
    characters of the occurrence just replaced that are still to pass. *)
Fixpoint replace_from (old new : str) (skip : nat) (s : str) : str :=
  match s with
  | [] => []
  | c :: r =>
      match skip with
      | S k => replace_from old new k r
      | O =>
          if starts_with old s then new ++ replace_from old new (length old - 1) r
          else c :: replace_from old new O r
      end
  end.

Definition str_replace (old new s : str) : str := replace_from old new O s.

(** [a or b] for an optional string [a]. *)
Definition or_else (a : option str) (b : str) : str :=
  match a with
  | Some (c :: s) => c :: s
  | _ => b
  end.

(** [db.rollback()] in a handler, then the [HTTPException] the handler
    raises. *)
Definition rollback_then (env : environment) (trace : list db_call) (o : outcome)
  : outcome * list db_call :=
  let trace := trace ++ [Rollback] in
  match db_raises env trace with
  | Some e => (Propagated e, trace)
  | None => (o, trace)
  end.

(** The handlers of lines 100-114 for an exception that is no
    [HTTPException]. *)
Definition handle (env : environment) (e : raised) (trace : list db_call)
  : outcome * list db_call :=
  if is_value_error e then
    rollback_then env trace
      (HTTPException 400
         (error_payload (lit "VALIDATION_ERROR") (lit "PDF validation failed.")
            (Some (message e))))
  else
    rollback_then env trace
      (HTTPException 500
         (error_payload (lit "UPLOAD_FAILED") (lit "Unexpected error during upload.")
            (Some (message e)))).

(** A call on the session inside the [try]. *)
Definition db_do (env : environment) (c : db_call) (trace : list db_call)
    (k : list db_call -> outcome * list db_call) : outcome * list db_call :=
  let trace := trace ++ [c] in
  match db_raises env trace with
  | Some e => handle env e trace
  | None => k trace
  end.

(** The loop of lines 79-87. *)
Fixpoint add_pages (env : environment) (pdf_path : str) (pages_data : list page)
    (trace : list db_call) (k : list db_call -> outcome * list db_call)
  : outcome * list db_call :=
  match pages_data with
  | [] => k trace
  | page_data :: rest =>
      db_do env
        (Add_page (MkPageRow (new_book_id env) (page_number page_data) (text page_data)
                     pdf_path))
        trace (fun trace => add_pages env pdf_path rest trace k)
  end.

(** [upload_pdf]: how the request ends, the session calls it made, and the
    files after it. *)
Definition upload_pdf (env : environment) (filename : option str) (content : bytes)
    (title author : option str) (fs : files) : outcome * list db_call * files :=
  match filename with
  | None | Some [] =>
      (HTTPException 400
         (error_payload (lit "INVALID_FILE") (lit "Missing file name in upload.") None),
       [], fs)
  | Some filename =>
      match save_pdf env content filename fs with
      | (Error e, fs) => (handle env e [], fs)
      | (Value pdf_path, fs) =>
          match extract_text_by_page_at env fs pdf_path with
          | Error e => (handle env e [], fs)
          | Value [] =>
              (HTTPException 400
                 (error_payload (lit "EMPTY_EXTRACTED_CONTENT")
                    (lit "No usable pages found after PDF preprocessing.")
                    (Some (lit "The document may be scanned/noisy or filtered as front matter."))),
               [], fs)
          | Value pages_data =>
              let book :=
                MkBook (or_else title (str_replace (lit ".pdf") [] filename))
                  (or_else author (lit "Unknown"))
                  (len pages_data)
                  (lit "Uploaded from " ++ filename) in
              (db_do env (Add_book book) [] (fun trace =>
               db_do env Flush trace (fun trace =>
               add_pages env pdf_path pages_data trace (fun trace =>
               db_do env Commit trace (fun trace =>
               (Returned
                  (UploadResponse (new_book_id env) (book_title book) (book_author book)
                     (len pages_data) pdf_path
                     (lit "PDF uploaded and pages extracted")),
                trace))))),
               fs)
          end
      end
  end.

(** The rows of the pages of a book stored at [pdf_path]. *)
Definition rows_of (env : environment) (pdf_path : str) (pages_data : list page)
  : list PageRow :=
  map (fun pd => MkPageRow (new_book_id env) (page_number pd) (text pd) pdf_path) pages_data.

(** A request that failed in the service or in the session: the last
    session call is the rollback, and the request ends with the 400 of a
    [ValueError], the 500 of another exception, or the exception the
    rollback raised. *)
Definition rolled_back (env : environment) (o : outcome) (trace : list db_call) : Prop :=
  last trace = Some Rollback
  /\ match o with
     | Returned _ => False
     | HTTPException status_code detail =>
         (status_code = 400 /\ error_code detail = lit "VALIDATION_ERROR")
         \/ (status_code = 500 /\ error_code detail = lit "UPLOAD_FAILED")
     | Propagated e => db_raises env trace = Some e
     end.


(** ** Requests of the examples *)

(** An environment in which every file has the suffix [.pdf], the reader
    finds the pages [texts] in any file, and no session call raises. *)
Definition example_env (texts : list (option str)) : environment :=
  Environment 100 (fun _ => lit ".pdf") (fun name => lit "storage/pdfs/" ++ name)
    (lit "1b4e28ba") true (fun _ => Value texts) 7 (fun _ => None).

Definition example_upload (texts : list (option str)) : outcome * list db_call * files :=
  upload_pdf (example_env texts) (Some (lit "book.pdf")) PDF_SIGNATURE None None ∅.


(** * Properties *)

(** ** Characters *)

Ltac each_char c := destruct c as [[] [] [] [] [] [] [] []]; vm_compute; try reflexivity; try congruence.

Lemma isspace_lower_char c : isspace (lower_char c) = isspace c.
Proof. each_char c. Qed.

Lemma is_word_char_lower_char c : is_word_char (lower_char c) = is_word_char c.
Proof. each_char c. Qed.



Lemma isspace_SP : isspace SP = true.
Proof. reflexivity. Qed.

Lemma is_key_char_SP : is_key_char SP = true.
Proof. reflexivity. Qed.

Lemma is_word_char_not_space c : isspace c = true -> is_word_char c = false.
Proof. each_char c. Qed.

(** ** [drop_while] and [drop_while_end] *)

Section DropWhile.
Context {A : Type} (f : A -> bool).

Lemma drop_while_split (l : list A) :
  exists pre, l = pre ++ drop_while f l /\ forallb f pre = true.
Proof.
  induction l as [|x r [pre [E H]]]; simpl.
  - exists []. auto.
  - destruct (f x) eqn:Fx.
    + exists (x :: pre). simpl. rewrite Fx, H. split; [congruence | reflexivity].
    + exists []. auto.
Qed.

Lemma drop_while_head (l : list A) x r : drop_while f l = x :: r -> f x = false.
Proof.
  induction l as [|y l IH]; simpl; [discriminate|].
  destruct (f y) eqn:Fy; [exact IH|]. intros [= -> ->]. exact Fy.
Qed.

Lemma drop_while_all (pre l : list A) :
  forallb f pre = true -> drop_while f (pre ++ l) = drop_while f l.
Proof.
  induction pre as [|x pre IH]; simpl; [reflexivity|].
  destruct (f x); simpl; [exact IH | discriminate].
Qed.

Lemma drop_while_stop x (r : list A) : f x = false -> drop_while f (x :: r) = x :: r.
Proof. simpl. intros ->. reflexivity. Qed.

Lemma drop_while_nil_iff (l : list A) : drop_while f l = [] <-> forallb f l = true.
Proof.
  induction l as [|x r IH]; simpl; [tauto|].
  destruct (f x); simpl; [exact IH|]. split; discriminate.
Qed.

Lemma drop_while_end_split (l : list A) :
  exists suf, l = drop_while_end f l ++ suf /\ forallb f suf = true.
Proof.
  unfold drop_while_end.
  destruct (drop_while_split (rev l)) as [pre [E H]].
  exists (rev pre). split.
  - rewrite <- rev_app_distr, <- E. symmetry. apply rev_involutive.
  - rewrite forallb_forall in *. intros x Hx. apply H. now apply in_rev.
Qed.

Lemma drop_while_end_last (l : list A) r x :
  drop_while_end f l = r ++ [x] -> f x = false.
Proof.
  unfold drop_while_end. intros E.
  apply (f_equal (@rev A)) in E. rewrite rev_involutive, rev_unit in E.
  exact (drop_while_head _ _ _ E).
Qed.

Lemma drop_while_end_all (l suf : list A) :
  forallb f suf = true -> drop_while_end f (l ++ suf) = drop_while_end f l.
Proof.
  intros H. unfold drop_while_end. rewrite rev_app_distr, drop_while_all; [reflexivity|].
  rewrite forallb_forall in *. intros x Hx. apply H. now apply in_rev.
Qed.

Lemma drop_while_end_stop (l : list A) x :
  f x = false -> drop_while_end f (l ++ [x]) = l ++ [x].
Proof.
  intros H. unfold drop_while_end. rewrite rev_unit, drop_while_stop by exact H.
  simpl. now rewrite rev_involutive.
Qed.

Lemma drop_while_end_nil : drop_while_end f [] = [].
Proof. reflexivity. Qed.

Lemma drop_while_end_nil_iff (l : list A) : drop_while_end f l = [] <-> forallb f l = true.
Proof.
  unfold drop_while_end. split.
  - intros E. apply (f_equal (@rev A)) in E. rewrite rev_involutive in E. simpl in E.
    apply drop_while_nil_iff in E. rewrite forallb_forall in *.
    intros x Hx. apply E. now apply in_rev in Hx.
  - intros H. assert (E : drop_while f (rev l) = []).
    { apply drop_while_nil_iff. rewrite forallb_forall in *.
      intros x Hx. apply H. now apply in_rev. }
    now rewrite E.
Qed.

(** Dropping at the end keeps the head of what is left. *)
Lemma drop_while_end_cons x (r : list A) :
  f x = false -> exists r', drop_while_end f (x :: r) = x :: r'.
Proof.
  intros Fx. destruct (drop_while_end_split (x :: r)) as [suf [E H]].
  destruct (drop_while_end f (x :: r)) as [|y r'] eqn:D.
  - simpl in E. subst suf. simpl in H. rewrite Fx in H. discriminate.
  - simpl in E. injection E as -> _. now exists r'.
Qed.

End DropWhile.

(** ** [strip] *)

Lemma strip_split (s : str) :
  exists ws1 ws2, s = ws1 ++ strip s ++ ws2
    /\ forallb isspace ws1 = true /\ forallb isspace ws2 = true.
Proof.
  unfold strip, rstrip, lstrip.
  destruct (drop_while_split isspace s) as [ws1 [E1 H1]].
  destruct (drop_while_end_split isspace (drop_while isspace s)) as [ws2 [E2 H2]].
  exists ws1, ws2. rewrite <- E2. auto.
Qed.

Lemma strip_nil_iff (s : str) : strip s = [] <-> forallb isspace s = true.
Proof.
  unfold strip, rstrip, lstrip. rewrite drop_while_end_nil_iff. split.
  - intros H. destruct (drop_while_split isspace s) as [pre [E Hp]].
    rewrite E, forallb_app, Hp, H. reflexivity.
  - intros H. apply drop_while_nil_iff in H. now rewrite H.
Qed.

Lemma strip_trimmed (s : str) : trimmed (strip s).
Proof.
  unfold trimmed, strip, rstrip, lstrip. split.
  - destruct (drop_while isspace s) as [|c r] eqn:E; [reflexivity|].
    apply drop_while_head in E.
    destruct (drop_while_end_cons isspace c r E) as [r' ->].
    now apply drop_while_stop.
  - set (t := drop_while isspace s).
    destruct (drop_while_end isspace t) as [|c r] eqn:E using rev_ind; [reflexivity|].
    apply drop_while_end_stop. exact (drop_while_end_last _ _ _ _ E).
Qed.

Lemma trimmed_strip (s : str) : trimmed s -> strip s = s.
Proof. intros [H1 H2]. unfold strip. now rewrite H1. Qed.

Lemma trimmed_nil : trimmed [].
Proof. split; reflexivity. Qed.

Lemma trimmed_head c r : trimmed (c :: r) -> isspace c = false.
Proof. intros [H _]. exact (drop_while_head _ _ _ _ H). Qed.

Lemma trimmed_last r c : trimmed (r ++ [c]) -> isspace c = false.
Proof. intros [_ H]. exact (drop_while_end_last _ _ _ _ H). Qed.

Lemma trimmed_intro (s : str) :
  (forall c r, s = c :: r -> isspace c = false) ->
  (forall r c, s = r ++ [c] -> isspace c = false) -> trimmed s.
Proof.
  intros Hh Hl. split.
  - destruct s as [|c r]; [reflexivity|]. apply drop_while_stop. now apply (Hh c r).
  - destruct s as [|c r _] using rev_ind; [reflexivity|].
    apply drop_while_end_stop. now apply (Hl r c).
Qed.

Lemma strip_idem (s : str) : strip (strip s) = strip s.
Proof. apply trimmed_strip, strip_trimmed. Qed.

(** ** [_normalize_line] *)





Lemma sub_ws_from_snoc b (r : str) c :
  isspace c = false -> sub_ws_from b (r ++ [c]) = sub_ws_from b r ++ [c].
Proof.
  intros Hc. revert b. induction r as [|d r IH]; intros b; simpl.
  - now rewrite Hc.
  - destruct (isspace d), b; simpl; now rewrite IH.
Qed.

Lemma sub_ws_trimmed (s : str) : trimmed s -> trimmed (sub_ws s).
Proof.
  intros T. unfold sub_ws. split.
  - destruct s as [|c r]; [reflexivity|].
    pose proof (trimmed_head _ _ T) as Hc. simpl. rewrite Hc.
    now apply drop_while_stop.
  - destruct s as [|c r _] using rev_ind; [reflexivity|].
    pose proof (trimmed_last _ _ T) as Hc.
    rewrite sub_ws_from_snoc by exact Hc. now apply drop_while_end_stop.
Qed.

Lemma sub_ws_from_idem b (s : str) :
  sub_ws_from b (sub_ws_from b s) = sub_ws_from b s.
Proof.
  revert b. induction s as [|c r IH]; intros b; simpl; [reflexivity|].
  destruct (isspace c) eqn:Hc.
  - destruct b; [apply IH|]. simpl. now rewrite IH.
  - simpl. now rewrite Hc, IH.
Qed.








(** ** [_strip_recurring_edges] *)

Lemma pop_front_while_drop (H : gset str) (lines : list str) :
  pop_front_while H lines = drop_while (in_keys H) lines.
Proof.
  induction lines as [|l r IH]; simpl; [reflexivity|].
  unfold in_keys at 1. destruct (decide (_normalize_line l ∈ H)) as [Hin|Hin].
  - now rewrite bool_decide_eq_true_2.
  - now rewrite bool_decide_eq_false_2.
Qed.

Lemma pop_back_loop_drop (F : gset str) (fuel : nat) (cleaned : list str) :
  (length cleaned <= fuel)%nat ->
  pop_back_loop F fuel cleaned = drop_while_end (in_keys F) cleaned.
Proof.
  revert cleaned. induction fuel as [|fuel IH]; intros cleaned Hlen.
  - destruct cleaned; [reflexivity | simpl in Hlen; lia].
  - destruct cleaned as [|final cleaned _] using rev_ind; [reflexivity|].
    simpl. rewrite last_snoc, removelast_last.
    rewrite length_app in Hlen. simpl in Hlen.
    destruct (decide (_normalize_line final ∈ F)) as [Hin|Hin].
    + rewrite IH by lia. symmetry. apply drop_while_end_all.
      simpl. unfold in_keys. now rewrite bool_decide_eq_true_2.
    + symmetry. apply drop_while_end_stop.
      unfold in_keys. now rewrite bool_decide_eq_false_2.
Qed.

(** The second loop runs until its condition fails: more fuel changes
    nothing. *)
Lemma pop_back_while_exit (F : gset str) (fuel : nat) (cleaned : list str) :
  (length cleaned <= fuel)%nat ->
  pop_back_loop F fuel cleaned = pop_back_while F cleaned.
Proof.
  intros H. unfold pop_back_while. now rewrite !pop_back_loop_drop.
Qed.

Lemma strip_recurring_edges_drop (lines : list str) (H F : gset str) :
  _strip_recurring_edges lines H F
  = drop_while_end (in_keys F) (drop_while (in_keys H) lines).
Proof.
  unfold _strip_recurring_edges, pop_back_while.
  destruct lines as [|l r]; [reflexivity|].
  now rewrite pop_back_loop_drop, pop_front_while_drop.
Qed.

Lemma in_keys_true (K : gset str) l : in_keys K l = true <-> _normalize_line l ∈ K.
Proof. unfold in_keys. apply bool_decide_eq_true. Qed.

Lemma in_keys_false (K : gset str) l : in_keys K l = false <-> _normalize_line l ∉ K.
Proof. unfold in_keys. apply bool_decide_eq_false. Qed.

Lemma forallb_in_keys (K : gset str) (ls : list str) :
  forallb (in_keys K) ls = true <-> Forall (fun l => _normalize_line l ∈ K) ls.
Proof.
  rewrite forallb_forall, Forall_forall. split; intros H l Hl.
  - apply in_keys_true, H. now apply list_elem_of_In.
  - apply in_keys_true, H. now apply list_elem_of_In.
Qed.

(** The popped prefix and suffix. *)
Lemma strip_recurring_edges_split (lines : list str) (H F : gset str) :
  exists pre suf,
    lines = pre ++ _strip_recurring_edges lines H F ++ suf
    /\ Forall (fun l => _normalize_line l ∈ H) pre
    /\ Forall (fun l => _normalize_line l ∈ F) suf
    /\ (forall first rest,
          _strip_recurring_edges lines H F ++ suf = first :: rest ->
          _normalize_line first ∉ H).
Proof.
  rewrite strip_recurring_edges_drop.
  destruct (drop_while_split (in_keys H) lines) as [pre [E1 H1]].
  destruct (drop_while_end_split (in_keys F) (drop_while (in_keys H) lines)) as [suf [E2 H2]].
  exists pre, suf. rewrite <- E2.
  split; [exact E1|]. split; [now apply forallb_in_keys|].
  split; [now apply forallb_in_keys|].
  intros first rest Eo. apply (proj1 (in_keys_false _ _)).
  exact (drop_while_head _ _ _ _ Eo).
Qed.

(** C5: [_strip_recurring_edges] pops lines at the front while the first
    line's key is a recurring header, then pops lines at the back while the
    last line's key is a recurring footer; both loops run until their
    condition fails.  So the popped prefix lies in the header keys, the
    popped suffix in the footer keys, the line the first loop stopped at is
    no header, a result that is not empty starts with a line that is no
    header and ends with a line that is no footer, and a page of header (or
    footer) lines only is stripped to the empty list. *)
Theorem strip_recurring_edges_loops (lines : list str) (H F : gset str) :
  let out := _strip_recurring_edges lines H F in
  out = drop_while_end (in_keys F) (drop_while (in_keys H) lines)
  /\ (exists pre suf,
        lines = pre ++ out ++ suf
        /\ Forall (fun l => _normalize_line l ∈ H) pre
        /\ Forall (fun l => _normalize_line l ∈ F) suf
        /\ (forall first rest, out ++ suf = first :: rest -> _normalize_line first ∉ H))
  /\ (forall first rest, out = first :: rest -> _normalize_line first ∉ H)
  /\ (forall rest final, out = rest ++ [final] -> _normalize_line final ∉ F)
  /\ (Forall (fun l => _normalize_line l ∈ H) lines -> out = [])
  /\ (Forall (fun l => _normalize_line l ∈ F) lines -> out = []).
Proof.
  intros out. assert (E : out = drop_while_end (in_keys F) (drop_while (in_keys H) lines))
    by apply strip_recurring_edges_drop.
  destruct (strip_recurring_edges_split lines H F) as (pre & suf & E1 & Hpre & Hsuf & Hfront).
  fold out in E1, Hfront.
  split; [exact E|]. split; [|split; [|split; [|split]]].
  - now exists pre, suf.
  - intros first rest Eo. apply (Hfront first (rest ++ suf)). now rewrite Eo.
  - intros rest final Eo. rewrite Eo in E. symmetry in E.
    apply (proj1 (in_keys_false _ _)). exact (drop_while_end_last _ _ _ _ E).
  - intros Hall. apply forallb_in_keys, drop_while_nil_iff in Hall.
    rewrite E, Hall. reflexivity.
  - intros Hall. rewrite E. apply drop_while_end_nil_iff.
    apply forallb_in_keys.
    destruct (drop_while_split (in_keys H) lines) as [pre' [E' _]].
    rewrite E' in Hall. now apply Forall_app in Hall as [_ Hall].
Qed.

Lemma strip_recurring_edges_loops_witness :
  _strip_recurring_edges [lit "Booktures"; lit "BOOKTURES"] {[ lit "booktures" ]} ∅ = [].
Proof.
  apply (proj1 (proj2 (proj2 (proj2 (proj2 (strip_recurring_edges_loops _ _ _)))))).
  repeat constructor.
Defined.

(** What is left of [pre ++ core ++ suf] when [pre] is made of header lines,
    [suf] of footer lines, and [core] starts with a line that is no header
    and ends with one that is no footer. *)
Lemma strip_recurring_edges_core (pre core suf : list str) (H F : gset str) first final :
  Forall (fun l => _normalize_line l ∈ H) pre ->
  Forall (fun l => _normalize_line l ∈ F) suf ->
  head core = Some first -> _normalize_line first ∉ H ->
  last core = Some final -> _normalize_line final ∉ F ->
  _strip_recurring_edges (pre ++ core ++ suf) H F = core.
Proof.
  intros Hpre Hsuf Hh Hfirst Hl Hfinal.
  rewrite strip_recurring_edges_drop.
  rewrite drop_while_all by now apply forallb_in_keys.
  apply head_Some in Hh as [rest ->].
  rewrite <- app_comm_cons, drop_while_stop by now apply in_keys_false.
  rewrite app_comm_cons, drop_while_end_all by now apply forallb_in_keys.
  apply last_Some in Hl as [rest' ->].
  apply drop_while_end_stop. now apply in_keys_false.
Qed.

(** C10: the result is the contiguous run [lines[i:j]] of the input; what
    lies between the first line that is no header and the last line that is
    no footer is returned as it is, whatever keys its inner lines have. *)
Theorem strip_recurring_edges_infix (lines : list str) (H F : gset str) :
  (exists i j : nat,
      (i <= j <= length lines)%nat
      /\ _strip_recurring_edges lines H F = take (j - i) (drop i lines))
  /\ (forall pre core suf first final,
        lines = pre ++ core ++ suf ->
        Forall (fun l => _normalize_line l ∈ H) pre ->
        Forall (fun l => _normalize_line l ∈ F) suf ->
        head core = Some first -> _normalize_line first ∉ H ->
        last core = Some final -> _normalize_line final ∉ F ->
        _strip_recurring_edges lines H F = core).
Proof.
  split.
  - destruct (strip_recurring_edges_split lines H F) as (pre & suf & E & _).
    set (out := _strip_recurring_edges lines H F) in *.
    exists (length pre), (length pre + length out)%nat. split.
    + rewrite E, !length_app. lia.
    + transitivity (take (length out) (drop (length pre) (pre ++ out ++ suf))).
      * now rewrite drop_app_length, take_app_length.
      * rewrite <- E. f_equal. lia.
  - intros pre core suf first final -> Hpre Hsuf Hh Hfirst Hl Hfinal.
    now apply (strip_recurring_edges_core pre core suf H F first final).
Qed.

Lemma strip_recurring_edges_infix_witness :
  _strip_recurring_edges
    [lit "Booktures"; lit "Chapter 1"; lit "Booktures"; lit "It was late."; lit "- 7 -"]
    {[ lit "booktures" ]} {[ lit "7" ]}
  = [lit "Chapter 1"; lit "Booktures"; lit "It was late."].
Proof.
  apply (proj2 (strip_recurring_edges_infix _ _ _)
           [lit "Booktures"] [lit "Chapter 1"; lit "Booktures"; lit "It was late."]
           [lit "- 7 -"] (lit "Chapter 1") (lit "It was late.")).
  - reflexivity.
  - repeat constructor.
  - repeat constructor.
  - reflexivity.
  - intros Hin. apply elem_of_singleton in Hin. vm_compute in Hin. discriminate.
  - reflexivity.
  - intros Hin. apply elem_of_singleton in Hin. vm_compute in Hin. discriminate.
Defined.

(** ** Word tokens *)

Lemma flush_length (cur : str) : length (flush cur) = if cur is [] then O else 1%nat.
Proof. now destruct cur. Qed.

(** [re.findall] returns one token per maximal run of the class. *)
Lemma findall_words_from_count (cur s : str) :
  length (findall_words_from cur s)
  = ((if cur is [] then 0 else 1)
     + count_runs is_word_char (if cur is [] then false else true) s)%nat.
Proof.
  revert cur. induction s as [|c r IH]; intros cur; simpl.
  - rewrite flush_length. destruct cur; reflexivity.
  - destruct (is_word_char c).
    + rewrite IH. destruct cur; simpl; lia.
    + rewrite length_app, flush_length, IH. destruct cur; simpl; lia.
Qed.

Lemma word_count_of_tokens (s : str) : word_count_of s = token_count s.
Proof.
  unfold word_count_of, token_count, len, findall_words.
  now rewrite findall_words_from_count.
Qed.

(** Every token is a run of the class, and is not empty. *)
Lemma findall_words_from_class (cur s : str) :
  forallb is_word_char cur = true ->
  Forall (fun w => w <> [] /\ forallb is_word_char w = true) (findall_words_from cur s).
Proof.
  assert (Hflush : forall cur, forallb is_word_char cur = true ->
            Forall (fun w => w <> [] /\ forallb is_word_char w = true) (flush cur)).
  { intros [|c cur'] Hc; [constructor|]. constructor; [|constructor]. split.
    - simpl. intros E. now apply app_eq_nil in E as [_ E].
    - rewrite forallb_forall in *. intros x Hx. apply Hc. now apply in_rev in Hx. }
  revert cur. induction s as [|c r IH]; intros cur Hc; simpl; [now apply Hflush|].
  destruct (is_word_char c) eqn:Wc.
  - apply IH. simpl. now rewrite Wc.
  - apply Forall_app. split; [now apply Hflush | now apply IH].
Qed.

Lemma count_runs_lower b (s : str) :
  count_runs is_word_char b (lower s) = count_runs is_word_char b s.
Proof.
  revert b. induction s as [|c r IH]; intros b; simpl; [reflexivity|].
  rewrite is_word_char_lower_char. unfold lower in IH. now rewrite !IH.
Qed.

Lemma count_runs_space_l b (ws s : str) :
  ws <> [] -> forallb isspace ws = true ->
  count_runs is_word_char b (ws ++ s) = count_runs is_word_char false s.
Proof.
  revert b. induction ws as [|c r IH]; intros b Hne Hws; [congruence|].
  simpl in *. apply andb_true_iff in Hws as [Hc Hr].
  rewrite (is_word_char_not_space c Hc).
  destruct r as [|d r']; [reflexivity|]. apply IH; [discriminate | exact Hr].
Qed.

Lemma count_runs_space_r b (s ws : str) :
  forallb isspace ws = true ->
  count_runs is_word_char b (s ++ ws) = count_runs is_word_char b s.
Proof.
  intros Hws. revert b. induction s as [|c r IH]; intros b; simpl.
  - revert b. induction ws as [|c r IH]; intros b; [reflexivity|].
    simpl in *. apply andb_true_iff in Hws as [Hc Hr].
    rewrite (is_word_char_not_space c Hc). now apply IH.
  - now rewrite !IH.
Qed.

Lemma token_count_lower_strip (s : str) : token_count (lower (strip s)) = token_count s.
Proof.
  unfold token_count. f_equal. rewrite count_runs_lower.
  destruct (strip_split s) as [w1 [w2 [E [H1 H2]]]].
  rewrite E at 2. rewrite app_assoc, count_runs_space_r by exact H2.
  destruct w1 as [|c w1]; [reflexivity|].
  now rewrite count_runs_space_l.
Qed.

(** ** Substrings *)

Lemma starts_with_spec (kw s : str) :
  starts_with kw s = true <-> exists b, s = kw ++ b.
Proof.
  revert s. induction kw as [|k kw IH]; intros s; simpl.
  - split; [intros _; now exists s | reflexivity].
  - destruct s as [|c s]; [split; [discriminate | intros [b E]; discriminate]|].
    rewrite andb_true_iff, bool_decide_eq_true, IH. split.
    + intros [-> [b ->]]. now exists b.
    + intros [b [= -> ->]]. split; [reflexivity | now exists b].
Qed.

(** [contains] is Python's [kw in s]. *)
Lemma contains_spec (kw s : str) :
  contains kw s = true <-> exists a b, s = a ++ kw ++ b.
Proof.
  induction s as [|c s IH].
  - simpl. rewrite orb_false_r, starts_with_spec. split.
    + intros [b E]. now exists [], b.
    + intros [a [b E]]. destruct a; [now exists b | discriminate].
  - simpl. rewrite orb_true_iff, starts_with_spec, IH. split.
    + intros [[b E] | [a [b E]]]; [now exists [], b | exists (c :: a), b; now rewrite E].
    + intros [[|d a] [b E]]; [left; now exists b|].
      right. injection E as -> E. now exists a, b.
Qed.

Lemma last_default_irrelevant {A} (l : list A) x d d' : List.last (x :: l) d = List.last (x :: l) d'.
Proof.
  revert x. induction l as [|y l IH]; intros x; [reflexivity|].
  change (List.last (y :: l) d = List.last (y :: l) d'). apply IH.
Qed.

Lemma starts_with_space_only (kw ws : str) k :
  isspace (List.last (k :: kw) k) = false -> forallb isspace ws = true ->
  starts_with (k :: kw) ws = false.
Proof.
  revert k ws. induction kw as [|k' kw IH]; intros k ws Hl Hws.
  - destruct ws as [|w ws]; [reflexivity|]. simpl in *.
    apply andb_true_iff in Hws as [Hw _].
    rewrite bool_decide_eq_false_2; [reflexivity | congruence].
  - destruct ws as [|w ws]; [reflexivity|].
    change (starts_with (k :: k' :: kw) (w :: ws))
      with (bool_decide (k = w) && starts_with (k' :: kw) ws).
    simpl in Hws. apply andb_true_iff in Hws as [_ Hws].
    rewrite (IH k' ws); [apply andb_false_r | | exact Hws].
    rewrite (last_default_irrelevant kw k' k' k). exact Hl.
Qed.

Lemma starts_with_app_space (kw s ws : str) :
  (forall k r, kw = k :: r -> isspace (List.last kw k) = false) ->
  forallb isspace ws = true ->
  starts_with kw (s ++ ws) = starts_with kw s.
Proof.
  intros Hl Hws. revert s Hl. induction kw as [|k kw IH]; intros s Hl; [reflexivity|].
  destruct s as [|c s].
  - simpl app. rewrite starts_with_space_only; auto. now apply (Hl k kw).
  - simpl. f_equal. apply IH. intros k' r ->.
    specialize (Hl k _ eq_refl).
    rewrite (last_default_irrelevant r k' k' k). exact Hl.
Qed.

Lemma contains_app_space_r (kw s ws : str) :
  edges_not_space kw = true -> forallb isspace ws = true ->
  contains kw (s ++ ws) = contains kw s.
Proof.
  intros He Hws.
  destruct kw as [|k kw]; [discriminate|].
  unfold edges_not_space in He. apply andb_true_iff in He as [_ He].
  apply negb_true_iff in He.
  assert (Hl : forall k0 r, k :: kw = k0 :: r -> isspace (List.last (k :: kw) k0) = false).
  { intros k0 r _. now rewrite (last_default_irrelevant kw k k0 k). }
  induction s as [|c s IH].
  - simpl app. transitivity false; [|reflexivity].
    clear Hl. induction ws as [|w ws IHw]; [reflexivity|].
    change (contains (k :: kw) (w :: ws))
      with (starts_with (k :: kw) (w :: ws) || contains (k :: kw) ws).
    rewrite starts_with_space_only by assumption.
    simpl in Hws. apply andb_true_iff in Hws as [_ Hws]. now apply IHw.
  - change (contains (k :: kw) ((c :: s) ++ ws))
      with (starts_with (k :: kw) ((c :: s) ++ ws) || contains (k :: kw) (s ++ ws)).
    rewrite starts_with_app_space by assumption. now rewrite IH.
Qed.

Lemma contains_app_space_l (kw ws s : str) :
  edges_not_space kw = true -> forallb isspace ws = true ->
  contains kw (ws ++ s) = contains kw s.
Proof.
  intros He Hws.
  destruct kw as [|k kw]; [discriminate|].
  unfold edges_not_space in He. apply andb_true_iff in He as [He _].
  apply negb_true_iff in He.
  induction ws as [|w ws IH]; [reflexivity|].
  simpl in Hws. apply andb_true_iff in Hws as [Hw Hws].
  change (contains (k :: kw) ((w :: ws) ++ s))
    with (bool_decide (k = w) && starts_with kw (ws ++ s) || contains (k :: kw) (ws ++ s)).
  rewrite bool_decide_eq_false_2 by congruence. now apply IH.
Qed.

Lemma lower_space (ws : str) : forallb isspace ws = true -> forallb isspace (lower ws) = true.
Proof.
  induction ws as [|c r IH]; [reflexivity|]. simpl.
  intros [Hc Hr]%andb_true_iff. now rewrite isspace_lower_char, Hc, IH.
Qed.

Lemma contains_lower_strip (kw s : str) :
  edges_not_space kw = true ->
  contains kw (lower (strip s)) = contains kw (lower s).
Proof.
  intros He. destruct (strip_split s) as [w1 [w2 [E [H1 H2]]]].
  rewrite E at 2. unfold lower. rewrite !map_app.
  rewrite contains_app_space_l by (auto using lower_space).
  now rewrite contains_app_space_r by (auto using lower_space).
Qed.

Lemma keywords_edges : forallb edges_not_space front_matter_keywords = true.
Proof. reflexivity. Qed.

(** ** [_is_noise_page] *)

Lemma hits_existsb {A} (f : A -> bool) (l : list A) :
  (1 <=? len (List.filter f l)) = existsb f l.
Proof.
  unfold len. induction l as [|x l IH]; [reflexivity|]. simpl.
  destruct (f x); [|exact IH]. simpl length. apply Z.leb_le. lia.
Qed.

Lemma existsb_ext_forallb {A} (f g ok : A -> bool) (l : list A) :
  forallb ok l = true -> (forall x, ok x = true -> f x = g x) ->
  existsb f l = existsb g l.
Proof.
  intros Hok Hfg. induction l as [|x l IH]; [reflexivity|].
  simpl in *. apply andb_true_iff in Hok as [Hx Hl].
  now rewrite (Hfg x Hx), IH.
Qed.

Lemma keyword_hits_strip (s : str) :
  (1 <=? keyword_hits_of (lower (strip s)))
  = existsb (fun kw => contains kw (lower s)) front_matter_keywords.
Proof.
  unfold keyword_hits_of. rewrite hits_existsb.
  apply (existsb_ext_forallb _ _ edges_not_space); [apply keywords_edges|].
  intros kw Hkw. now apply contains_lower_strip.
Qed.

Lemma is_noise_page_eq (p : page) (logical_position : Z) :
  _is_noise_page p logical_position
  = (if forallb isspace (text p) then true
     else if token_count (text p) <? 20 then true
     else if (logical_position <=? 15)
             && existsb (fun kw => contains kw (lower (text p))) front_matter_keywords
             && (token_count (text p) <? 220)
          then true
          else false).
Proof.
  unfold _is_noise_page.
  destruct (strip (text p)) as [|c r] eqn:Es.
  - apply strip_nil_iff in Es. now rewrite Es.
  - destruct (forallb isspace (text p)) eqn:Eb.
    { apply strip_nil_iff in Eb. congruence. }
    rewrite <- Es, word_count_of_tokens, token_count_lower_strip, keyword_hits_strip.
    reflexivity.
Qed.



(** ** The threshold: [int(len(pages) * 0.2)] in binary64 *)

Lemma shr_1_m r : 0 <= shr_m r -> shr_m (shr_1 r) = shr_m r / 2.
Proof.
  destruct r as [m b s]. simpl. intros Hm.
  destruct m as [|p|p]; [reflexivity| |lia].
  destruct p as [p|p|]; simpl.
  - rewrite Pos2Z.inj_xI. apply Z.div_unique with 1; lia.
  - rewrite Pos2Z.inj_xO. apply Z.div_unique with 0; lia.
  - reflexivity.
Qed.

Lemma shr_m_iter p r :
  0 <= shr_m r -> shr_m (SpecFloat.iter_pos shr_1 p r) = shr_m r / 2 ^ Z.pos p.
Proof.
  revert r. induction p as [p IH|p IH|]; intros r Hr; simpl SpecFloat.iter_pos.
  - assert (H1 : 0 <= shr_m (shr_1 r)) by (rewrite shr_1_m by assumption; apply Z.div_pos; lia).
    assert (H2 : 0 <= shr_m (SpecFloat.iter_pos shr_1 p (shr_1 r))).
    { rewrite IH by assumption. apply Z.div_pos; [assumption|]. apply Z.pow_pos_nonneg; lia. }
    rewrite IH, IH, shr_1_m by assumption.
    rewrite !Z.div_div by (try apply Z.pow_pos_nonneg; lia).
    f_equal. replace (Z.pos p~1) with (1 + Z.pos p + Z.pos p) by lia.
    rewrite !Z.pow_add_r by lia. lia.
  - assert (H2 : 0 <= shr_m (SpecFloat.iter_pos shr_1 p r)).
    { rewrite IH by assumption. apply Z.div_pos; [assumption|]. apply Z.pow_pos_nonneg; lia. }
    rewrite IH, IH by assumption.
    rewrite !Z.div_div by (try apply Z.pow_pos_nonneg; lia).
    f_equal. replace (Z.pos p~0) with (Z.pos p + Z.pos p) by lia.
    rewrite !Z.pow_add_r by lia. lia.
  - now rewrite shr_1_m.
Qed.

Lemma digits2_pos_size p : digits2_pos p = Pos.size p.
Proof. induction p; simpl; congruence. Qed.

Lemma Zdigits2_log2 m : 0 < m -> Zdigits2 m = Z.log2 m + 1.
Proof.
  destruct m as [|p|p]; try lia. intros _. simpl. rewrite digits2_pos_size.
  destruct p; simpl; lia.
Qed.

Lemma Zdigits2_unique m d : 0 < d -> 2 ^ (d - 1) <= m < 2 ^ d -> Zdigits2 m = d.
Proof.
  intros Hd Hm. assert (0 < m) by (pose proof (Z.pow_pos_nonneg 2 (d - 1)); lia).
  rewrite Zdigits2_log2 by assumption.
  rewrite (Z.log2_unique m (d - 1)); [lia | lia |].
  replace (Z.succ (d - 1)) with d by lia. exact Hm.
Qed.

Lemma Zdigits2_bounds m : 0 < m -> 2 ^ (Zdigits2 m - 1) <= m < 2 ^ Zdigits2 m.
Proof.
  intros Hm. rewrite Zdigits2_log2 by assumption.
  replace (Z.log2 m + 1 - 1) with (Z.log2 m) by lia.
  pose proof (Z.log2_spec m Hm). lia.
Qed.

Lemma shr_fexp_spec m e l :
  0 <= m ->
  shr_m (fst (shr_fexp prec emax m e l)) = m / 2 ^ shift_of m e
  /\ snd (shr_fexp prec emax m e l) = e + shift_of m e.
Proof.
  intros Hm. unfold shr_fexp, shift_of, shr.
  assert (Hrec : shr_m (shr_record_of_loc m l) = m) by (destruct l as [|[]]; reflexivity).
  destruct (fexp prec emax (Zdigits2 m + e) - e) as [|p|p] eqn:E; simpl fst; simpl snd.
  - rewrite Hrec, Z.max_id. simpl. rewrite Z.div_1_r. lia.
  - rewrite shr_m_iter by lia. rewrite Hrec.
    rewrite Z.max_r by lia. split; reflexivity.
  - rewrite Hrec. rewrite Z.max_l by lia. simpl. rewrite Z.div_1_r. lia.
Qed.

Lemma round_nearest_even_bounds m l : m <= round_nearest_even m l <= m + 1.
Proof. destruct l as [|[]]; simpl; try lia. destruct (Z.even m); lia. Qed.

Lemma binary_round_aux_spec s mx ex lx :
  0 <= mx ->
  exists mr,
    let m1 := mx / 2 ^ shift_of mx ex in
    let e1 := ex + shift_of mx ex in
    m1 <= mr <= m1 + 1
    /\ binary_round_aux prec emax s mx ex lx
       = match mr / 2 ^ shift_of mr e1 with
         | Z0 => S754_zero s
         | Zpos m =>
             if e1 + shift_of mr e1 <=? emax - prec
             then S754_finite s m (e1 + shift_of mr e1) else S754_infinity s
         | Zneg _ => S754_nan
         end.
Proof.
  intros Hmx. unfold binary_round_aux.
  destruct (shr_fexp_spec mx ex lx Hmx) as [Hm1 He1].
  destruct (shr_fexp prec emax mx ex lx) as [mrs' e'] eqn:E1. simpl in Hm1, He1.
  set (mr := round_nearest_even (shr_m mrs') (loc_of_shr_record mrs')).
  exists mr. cbv zeta.
  pose proof (round_nearest_even_bounds (shr_m mrs') (loc_of_shr_record mrs')) as Hb.
  fold mr in Hb. rewrite Hm1 in Hb. split; [exact Hb|].
  assert (Hmr : 0 <= mr).
  { pose proof (Z.div_pos mx (2 ^ shift_of mx ex) Hmx).
    assert (0 < 2 ^ shift_of mx ex) by (apply Z.pow_pos_nonneg; unfold shift_of; lia). lia. }
  destruct (shr_fexp_spec mr e' loc_Exact Hmr) as [Hm2 He2].
  destruct (shr_fexp prec emax mr e' loc_Exact) as [mrs'' e''] eqn:E2. simpl in Hm2, He2.
  rewrite Hm2, He2, He1. reflexivity.
Qed.

Lemma shift_of_eq m e :
  shift_of m e = Z.max 0 (Z.max (Zdigits2 m - 53) (-1074 - e)).
Proof. unfold shift_of, fexp, emin, prec, emax. lia. Qed.

Lemma binary_round_aux_exact s mx ex :
  0 < mx -> shift_of mx ex = 0 -> ex <= 971 ->
  binary_round_aux prec emax s mx ex loc_Exact = S754_finite s (Z.to_pos mx) ex.
Proof.
  intros Hmx Hs He. unfold binary_round_aux.
  unfold shift_of in Hs.
  assert (Hr : round_nearest_even (shr_m (shr_record_of_loc mx loc_Exact))
                 (loc_of_shr_record (shr_record_of_loc mx loc_Exact)) = mx) by reflexivity.
  assert (Hshr : shr (shr_record_of_loc mx loc_Exact) ex
                   (fexp prec emax (Zdigits2 mx + ex) - ex)
                 = (shr_record_of_loc mx loc_Exact, ex)).
  { unfold shr. destruct (fexp prec emax (Zdigits2 mx + ex) - ex); try reflexivity. lia. }
  unfold shr_fexp at 1. rewrite Hshr. cbv beta iota. rewrite Hr.
  unfold shr_fexp. rewrite Hshr. cbv beta iota.
  destruct mx as [|p|p]; try lia. cbn [shr_m shr_record_of_loc Z.to_pos].
  change (emax - prec) with 971.
  assert (Hle : (ex <=? 971) = true) by (apply Z.leb_le; lia).
  now rewrite Hle.
Qed.

Lemma pos_iter_xO p k : Z.pos (Pos.iter xO p k) = Z.pos p * 2 ^ Z.pos k.
Proof.
  induction k as [|k IH] using Pos.peano_ind.
  - simpl. lia.
  - rewrite Pos.iter_succ, Pos2Z.inj_succ, Z.pow_succ_r by lia.
    change (Z.pos (Pos.iter xO p k)~0) with (2 * Z.pos (Pos.iter xO p k)). lia.
Qed.

(** The float of a small positive integer: its mantissa is the integer
    shifted to 53 bits. *)
Lemma binary_normalize_small z :
  0 < z < 2 ^ 52 ->
  let d := Zdigits2 z in
  binary_normalize prec emax z 0 false
  = S754_finite false (Z.to_pos (z * 2 ^ (53 - d))) (d - 53).
Proof.
  intros Hz d.
  pose proof (Zdigits2_bounds z ltac:(lia)) as Hd. fold d in Hd.
  assert (Hd1 : 1 <= d).
  { unfold d. rewrite Zdigits2_log2 by lia. pose proof (Z.log2_nonneg z). lia. }
  assert (Hd2 : d <= 52).
  { destruct (Z.le_gt_cases d 52) as [H|H]; [exact H|].
    assert (2 ^ 52 <= 2 ^ (d - 1)) by (apply Z.pow_le_mono_r; lia). lia. }
  destruct z as [|p|p]; try lia. simpl binary_normalize. unfold binary_round.
  change (Z.pos (digits2_pos p)) with (Zdigits2 (Z.pos p)). fold d.
  assert (Hf : fexp prec emax (d + 0) = d - 53) by (unfold fexp, emin, prec, emax; lia).
  rewrite Hf. unfold shl_align.
  destruct (d - 53 - 0) as [|k|k] eqn:Ek; try lia.
  assert (Hk : Z.pos k = 53 - d) by lia.
  assert (Hmz : Z.pos (Pos.iter xO p k) = Z.pos p * 2 ^ (53 - d))
    by (rewrite pos_iter_xO, Hk; reflexivity).
  rewrite binary_round_aux_exact.
  - rewrite Hmz. reflexivity.
  - lia.
  - rewrite shift_of_eq.
    assert (Zdigits2 (Z.pos (Pos.iter xO p k)) = 53).
    { apply Zdigits2_unique; [lia|]. rewrite Hmz.
      replace (2 ^ (53 - 1)) with (2 ^ (d - 1) * 2 ^ (53 - d))
        by (rewrite <- Z.pow_add_r by lia; f_equal; lia).
      replace (2 ^ 53) with (2 ^ d * 2 ^ (53 - d))
        by (rewrite <- Z.pow_add_r by lia; f_equal; lia).
      assert (0 < 2 ^ (53 - d)) by (apply Z.pow_pos_nonneg; lia).
      split; [apply Z.mul_le_mono_nonneg_r | apply Z.mul_lt_mono_pos_r]; lia. }
    lia.
  - lia.
Qed.

Lemma Prim2SF_fifth :
  Prim2SF 0x1.999999999999ap-3%float = S754_finite false 7205759403792794 (-55).
Proof. reflexivity. Qed.

Lemma float_of_len_spec (n : nat) :
  Prim2SF (float_of_len n)
  = binary_normalize prec emax (Z.of_nat n mod 2 ^ 63) 0 false.
Proof.
  unfold float_of_len. rewrite of_uint63_spec, Uint63.of_Z_spec. reflexivity.
Qed.

(** Truncating a quotient by a power of two that is itself rounded from a
    larger quotient. *)
Lemma div_between a b q : 0 < b -> b * q <= a < b * (q + 1) -> a / b = q.
Proof.
  intros Hb H. symmetry. apply (Z.div_unique a b q (a - b * q)); lia.
Qed.


Lemma small_digits z :
  0 < z < 2 ^ 52 ->
  1 <= Zdigits2 z <= 52
  /\ 2 <= 2 ^ (53 - Zdigits2 z)
  /\ 2 ^ 52 <= z * 2 ^ (53 - Zdigits2 z) < 2 ^ 53.
Proof.
  intros Hz. set (d := Zdigits2 z).
  pose proof (Zdigits2_bounds z ltac:(lia)) as Hd. fold d in Hd.
  assert (Hd1 : 1 <= d).
  { unfold d. rewrite Zdigits2_log2 by lia. pose proof (Z.log2_nonneg z). lia. }
  assert (Hd2 : d <= 52).
  { destruct (Z.le_gt_cases d 52) as [H|H]; [exact H|].
    assert (2 ^ 52 <= 2 ^ (d - 1)) by (apply Z.pow_le_mono_r; lia). lia. }
  split; [lia|]. split.
  - change 2 with (2 ^ 1) at 1. apply Z.pow_le_mono_r; lia.
  - replace (2 ^ 52) with (2 ^ (d - 1) * 2 ^ (53 - d))
      by (rewrite <- Z.pow_add_r by lia; f_equal; lia).
    replace (2 ^ 53) with (2 ^ d * 2 ^ (53 - d))
      by (rewrite <- Z.pow_add_r by lia; f_equal; lia).
    assert (0 < 2 ^ (53 - d)) by (apply Z.pow_pos_nonneg; lia).
    split; [apply Z.mul_le_mono_nonneg_r | apply Z.mul_lt_mono_pos_r]; lia.
Qed.

Lemma Zdigits2_product mx :
  2 ^ 104 <= mx < 2 ^ 106 ->
  (Zdigits2 mx = 105 /\ mx < 2 ^ 105) \/ (Zdigits2 mx = 106 /\ 2 ^ 105 <= mx).
Proof.
  intros H. destruct (Z.lt_ge_cases mx (2 ^ 105)) as [Hlt|Hge].
  - left. split; [|exact Hlt]. apply Zdigits2_unique; lia.
  - right. split; [|exact Hge]. apply Zdigits2_unique; lia.
Qed.

Lemma Zdigits2_rounded mr :
  2 ^ 52 <= mr <= 2 ^ 53 ->
  (mr < 2 ^ 53 /\ Zdigits2 mr = 53) \/ (mr = 2 ^ 53 /\ Zdigits2 mr = 54).
Proof.
  intros H. destruct (Z.eq_dec mr (2 ^ 53)) as [->|Hne]; [right; split; reflexivity|].
  left. split; [lia|]. apply Zdigits2_unique; lia.
Qed.

Lemma div_pow2_bounds a k : 0 < 2 ^ k -> 2 ^ k * (a / 2 ^ k) <= a < 2 ^ k * (a / 2 ^ k + 1).
Proof.
  intros H. pose proof (Z.div_mod a (2 ^ k) ltac:(lia)).
  pose proof (Z.mod_pos_bound a (2 ^ k) ltac:(lia)). lia.
Qed.

(** What [binary_round_aux] returns for a rounded mantissa [mr] of 53 bits,
    or of 54 bits after a carry. *)
Lemma rounded_result (mr e1 : Z) :
  2 ^ 52 <= mr <= 2 ^ 53 -> -1074 <= e1 <= 900 ->
  exists m e,
    match mr / 2 ^ shift_of mr e1 with
    | Z0 => S754_zero false
    | Zpos m =>
        if e1 + shift_of mr e1 <=? emax - prec
        then S754_finite false m (e1 + shift_of mr e1) else S754_infinity false
    | Zneg _ => S754_nan
    end = S754_finite false m e
    /\ e1 <= e <= e1 + 1
    /\ Z.pos m * 2 ^ (e - e1) = mr.
Proof.
  intros Hmr He1. change (emax - prec) with 971.
  destruct (Zdigits2_rounded mr Hmr) as [[Hlt Hdig]|[Hc Hdig]].
  - assert (Hs : shift_of mr e1 = 0) by (rewrite shift_of_eq, Hdig; lia).
    rewrite Hs, Z.pow_0_r, Z.div_1_r.
    destruct mr as [|m|m]; try lia.
    replace (e1 + 0 <=? 971) with true by (symmetry; apply Z.leb_le; lia).
    exists m, (e1 + 0). split; [reflexivity|]. split; [lia|].
    replace (e1 + 0 - e1) with 0 by lia. lia.
  - assert (Hs : shift_of mr e1 = 1) by (rewrite shift_of_eq, Hdig; lia).
    rewrite Hs, Hc. change (2 ^ 53 / 2 ^ 1) with (Z.pos (2 ^ 52)).
    replace (e1 + 1 <=? 971) with true by (symmetry; apply Z.leb_le; lia).
    exists (2 ^ 52)%positive, (e1 + 1). split; [reflexivity|]. split; [lia|].
    replace (e1 + 1 - e1) with 1 by lia. reflexivity.
Qed.

Lemma product_small (z : Z) :
  0 < z < 2 ^ 52 ->
  exists m e,
    SFmul prec emax (binary_normalize prec emax z 0 false)
      (S754_finite false 7205759403792794 (-55))
    = S754_finite false m e
    /\ e < 0 /\ Z.pos m / 2 ^ (- e) = z / 5.
Proof.
  intros Hz. rewrite binary_normalize_small by exact Hz. cbv zeta.
  destruct (small_digits z Hz) as (Hd & HA & Hmz).
  set (d := Zdigits2 z) in *. set (A := 2 ^ (53 - d)) in *.
  set (mz := z * A) in *.
  unfold SFmul. cbn [xorb].
  rewrite Pos2Z.inj_mul, Z2Pos.id by lia.
  set (mx := mz * 7205759403792794).
  replace (d - 53 + -55) with (d - 108) by lia.
  assert (Hmx : 2 ^ 104 <= mx < 2 ^ 106) by (unfold mx; lia).
  destruct (binary_round_aux_spec false mx (d - 108) loc_Exact ltac:(lia))
    as [mr [Hmr ->]].
  cbv zeta in Hmr.
  set (q := z / 5).
  assert (Hq : 5 * q <= z <= 5 * q + 4).
  { unfold q. pose proof (Z.div_mod z 5 ltac:(lia)).
    pose proof (Z.mod_pos_bound z 5 ltac:(lia)). lia. }
  set (qA := q * A).
  assert (HqA : 5 * qA <= mz <= 5 * qA + 4 * A) by (unfold qA, mz; nia).
  assert (Hpow : forall k, 0 <= k -> 2 ^ (k + (53 - d)) = 2 ^ k * A).
  { intros k Hk. unfold A. rewrite Z.pow_add_r by lia. reflexivity. }
  destruct (Zdigits2_product mx Hmx) as [[HD Hlt]|[HD Hge]].
  - (* the product has 105 bits: 52 are rounded away *)
    assert (Hs : shift_of mx (d - 108) = 52) by (rewrite shift_of_eq, HD; lia).
    rewrite Hs in *.
    pose proof (div_pow2_bounds mx 52 ltac:(lia)) as Hm1.
    set (m1 := mx / 2 ^ 52) in *.
    destruct (rounded_result mr (d - 108 + 52) ltac:(lia) ltac:(lia))
      as (m & e & -> & He & Hm).
    exists m, e. split; [reflexivity|]. split; [lia|].
    assert (Hcase : e = d - 108 + 52 \/ e = d - 108 + 52 + 1) by lia.
    destruct Hcase as [->| ->].
    + replace (d - 108 + 52 - (d - 108 + 52)) with 0 in Hm by lia.
      replace (- (d - 108 + 52)) with (3 + (53 - d)) by lia.
      rewrite Hpow by lia. apply div_between; [lia|].
      fold qA. unfold mx in Hm1. lia.
    + replace (d - 108 + 52 + 1 - (d - 108 + 52)) with 1 in Hm by lia.
      replace (- (d - 108 + 52 + 1)) with (2 + (53 - d)) by lia.
      rewrite Hpow by lia. apply div_between; [lia|].
      fold qA. unfold mx in Hm1. lia.
  - (* the product has 106 bits: 53 are rounded away *)
    assert (Hs : shift_of mx (d - 108) = 53) by (rewrite shift_of_eq, HD; lia).
    rewrite Hs in *.
    pose proof (div_pow2_bounds mx 53 ltac:(lia)) as Hm1.
    set (m1 := mx / 2 ^ 53) in *.
    destruct (rounded_result mr (d - 108 + 53) ltac:(lia) ltac:(lia))
      as (m & e & -> & He & Hm).
    exists m, e. split; [reflexivity|]. split; [lia|].
    assert (Hcase : e = d - 108 + 53 \/ e = d - 108 + 53 + 1) by lia.
    destruct Hcase as [->| ->].
    + replace (d - 108 + 53 - (d - 108 + 53)) with 0 in Hm by lia.
      replace (- (d - 108 + 53)) with (2 + (53 - d)) by lia.
      rewrite Hpow by lia. apply div_between; [lia|].
      fold qA. unfold mx in Hm1. lia.
    + replace (d - 108 + 53 + 1 - (d - 108 + 53)) with 1 in Hm by lia.
      replace (- (d - 108 + 53 + 1)) with (1 + (53 - d)) by lia.
      rewrite Hpow by lia. apply div_between; [lia|].
      fold qA. unfold mx in Hm1. lia.
Qed.

Lemma Zdigits2_le m D : 0 <= D -> 0 <= m < 2 ^ D -> 0 <= Zdigits2 m <= D.
Proof.
  intros HD Hm. destruct (Z.eq_dec m 0) as [->|Hne]; [simpl; lia|].
  pose proof (Zdigits2_bounds m ltac:(lia)) as Hb.
  assert (0 < Zdigits2 m).
  { rewrite Zdigits2_log2 by lia. pose proof (Z.log2_nonneg m). lia. }
  split; [lia|].
  destruct (Z.le_gt_cases (Zdigits2 m) D) as [H1|H1]; [exact H1|].
  assert (2 ^ D <= 2 ^ (Zdigits2 m - 1)) by (apply Z.pow_le_mono_r; lia). lia.
Qed.

(** Far from the overflow threshold, rounding gives a zero or a finite
    number of the same sign. *)
Lemma binary_round_aux_finite s mx ex lx D :
  0 <= D <= 200 -> 0 < mx < 2 ^ D -> -1074 <= ex <= 300 ->
  binary_round_aux prec emax s mx ex lx = S754_zero s
  \/ exists m e,
       binary_round_aux prec emax s mx ex lx = S754_finite s m e
       /\ Z.pos m <= mx + 1 /\ ex <= e <= ex + 2 * D + 2.
Proof.
  intros HD Hmx Hex.
  destruct (binary_round_aux_spec s mx ex lx ltac:(lia)) as [mr [Hmr ->]].
  cbv zeta in Hmr. change (emax - prec) with 971.
  pose proof (Zdigits2_le mx D ltac:(lia) ltac:(lia)) as Hdx.
  assert (Hs1 : 0 <= shift_of mx ex <= D) by (rewrite shift_of_eq; lia).
  set (s1 := shift_of mx ex) in *.
  assert (Hp1 : 0 < 2 ^ s1) by (apply Z.pow_pos_nonneg; lia).
  assert (Hm1 : 0 <= mx / 2 ^ s1 <= mx).
  { split; [apply Z.div_pos; lia|].
    apply Z.div_le_upper_bound; [lia|]. nia. }
  assert (Hmr2 : 0 <= mr < 2 ^ (D + 1)).
  { rewrite Z.pow_add_r, Z.pow_1_r by lia. lia. }
  pose proof (Zdigits2_le mr (D + 1) ltac:(lia) Hmr2) as Hdr.
  assert (Hs2 : 0 <= shift_of mr (ex + s1) <= D + 1) by (rewrite shift_of_eq; lia).
  set (s2 := shift_of mr (ex + s1)) in *.
  assert (Hp2 : 0 < 2 ^ s2) by (apply Z.pow_pos_nonneg; lia).
  assert (Hm2 : 0 <= mr / 2 ^ s2 <= mr).
  { split; [apply Z.div_pos; lia|].
    apply Z.div_le_upper_bound; [lia|]. nia. }
  destruct (mr / 2 ^ s2) as [|m|m] eqn:Em; [now left | | lia].
  right. replace (ex + s1 + s2 <=? 971) with true by (symmetry; apply Z.leb_le; lia).
  exists m, (ex + s1 + s2). split; [reflexivity|]. lia.
Qed.

Lemma binary_normalize_finite z :
  0 <= z < 2 ^ 63 ->
  binary_normalize prec emax z 0 false = S754_zero false
  \/ exists m e,
       binary_normalize prec emax z 0 false = S754_finite false m e
       /\ Z.pos m <= 2 ^ 63 /\ -52 <= e <= 200.
Proof.
  intros Hz. destruct z as [|p|p]; [now left | | lia].
  simpl binary_normalize. unfold binary_round.
  change (Z.pos (digits2_pos p)) with (Zdigits2 (Z.pos p)).
  pose proof (Zdigits2_le (Z.pos p) 63 ltac:(lia) ltac:(lia)) as Hd.
  pose proof (Zdigits2_bounds (Z.pos p) ltac:(lia)) as Hb.
  set (d := Zdigits2 (Z.pos p)) in *.
  assert (Hd1 : 1 <= d).
  { unfold d. rewrite Zdigits2_log2 by lia. pose proof (Z.log2_nonneg (Z.pos p)). lia. }
  assert (Hf : fexp prec emax (d + 0) = d - 53) by (unfold fexp, emin, prec, emax; lia).
  rewrite Hf. unfold shl_align.
  destruct (d - 53 - 0) as [|k|k] eqn:Ek.
  - destruct (binary_round_aux_finite false (Z.pos p) 0 loc_Exact 63)
      as [->|(m & e & -> & Hm & He)]; try lia; [now left|].
    right. exists m, e. split; [reflexivity|]. lia.
  - destruct (binary_round_aux_finite false (Z.pos p) 0 loc_Exact 63)
      as [->|(m & e & -> & Hm & He)]; try lia; [now left|].
    right. exists m, e. split; [reflexivity|]. lia.
  - assert (Hk : Z.pos k = 53 - d) by lia.
    assert (Hmz : Z.pos (Pos.iter xO p k) = Z.pos p * 2 ^ (53 - d))
      by (rewrite pos_iter_xO, Hk; reflexivity).
    assert (Hlt : Z.pos (Pos.iter xO p k) < 2 ^ 53).
    { rewrite Hmz.
      replace (2 ^ 53) with (2 ^ d * 2 ^ (53 - d))
        by (rewrite <- Z.pow_add_r by lia; f_equal; lia).
      apply Z.mul_lt_mono_pos_r; [apply Z.pow_pos_nonneg|]; lia. }
    destruct (binary_round_aux_finite false (Z.pos (Pos.iter xO p k)) (d - 53) loc_Exact 53)
      as [->|(m & e & -> & Hm & He)]; try lia; [now left|].
    right. exists m, e. split; [reflexivity|]. lia.
Qed.

(** [int(len(pages) * 0.2)] raises nothing and is not negative. *)
Lemma int_of_fifth_total (n : nat) :
  exists z, int_of_float (float_of_len n * 0x1.999999999999ap-3)%float = Ok z /\ 0 <= z.
Proof.
  unfold int_of_float. rewrite FloatAxioms.mul_spec, float_of_len_spec, Prim2SF_fifth.
  assert (Hz : 0 <= Z.of_nat n mod 2 ^ 63 < 2 ^ 63) by (apply Z.mod_pos_bound; lia).
  destruct (binary_normalize_finite _ Hz) as [->|(m & e & -> & Hm & He)].
  - exists 0. split; [reflexivity | lia].
  - unfold SF64mul, SFmul. cbn [xorb].
    destruct (binary_round_aux_finite false (Z.pos (m * 7205759403792794)) (e + -55)
                loc_Exact 116) as [->|(m' & e' & -> & Hm' & He')]; try lia.
    + exists 0. split; [reflexivity | lia].
    + eexists. split; [reflexivity|].
      destruct (0 <=? e').
      * apply Z.shiftl_nonneg. lia.
      * apply Z.shiftr_nonneg. lia.
Qed.

(** For every length a list can have in practice the result is the exact
    floor of a fifth of the length. *)
Lemma int_of_fifth_exact (n : nat) :
  Z.of_nat n < 2 ^ 52 ->
  int_of_float (float_of_len n * 0x1.999999999999ap-3)%float = Ok (Z.of_nat n / 5).
Proof.
  intros Hn. unfold int_of_float. rewrite FloatAxioms.mul_spec, float_of_len_spec, Prim2SF_fifth.
  rewrite Z.mod_small by lia.
  destruct (Z.eq_dec (Z.of_nat n) 0) as [->|Hne]; [reflexivity|].
  destruct (product_small (Z.of_nat n) ltac:(lia)) as (m & e & E & He & Hq).
  unfold SF64mul. rewrite E.
  replace (0 <=? e) with false by (symmetry; apply Z.leb_gt; lia).
  rewrite Z.shiftr_div_pow2 by lia. now rewrite Hq.
Qed.

Lemma recurring_threshold_total (n : nat) :
  exists thr, recurring_threshold_of n = Ok thr /\ 3 <= thr.
Proof.
  unfold recurring_threshold_of.
  destruct (int_of_fifth_total n) as (z & -> & Hz).
  exists (Z.max 3 z). split; [reflexivity | lia].
Qed.

Lemma recurring_threshold_exact (n : nat) :
  Z.of_nat n < 2 ^ 52 ->
  recurring_threshold_of n = Ok (Z.max 3 (Z.of_nat n / 5)).
Proof.
  intros Hn. unfold recurring_threshold_of. now rewrite int_of_fifth_exact.
Qed.

(** ** The first loop: count tables and page lines *)

Lemma scan_snoc (pages : list page) (p : page) :
  scan (pages ++ [p]) = scan_step (scan pages) p.
Proof. unfold scan. apply foldl_snoc. Qed.

Lemma scan_page_lines (pages : list page) :
  page_lines (scan pages) = map (fun p => nonblank_lines (text p)) pages.
Proof.
  induction pages as [|p pages IH] using rev_ind; [reflexivity|].
  rewrite scan_snoc, map_app. unfold scan_step.
  destruct (nonblank_lines (text p)) eqn:E; simpl; now rewrite IH, E.
Qed.

Lemma occurrences_snoc (key_of : page -> option str) (k : str) (pages : list page) (p : page) :
  occurrences key_of k (pages ++ [p])
  = occurrences key_of k pages + (if bool_decide (key_of p = Some k) then 1 else 0).
Proof.
  unfold occurrences, len. rewrite List.filter_app, length_app. simpl.
  destruct (bool_decide (key_of p = Some k)); simpl; lia.
Qed.

Lemma occurrences_nonneg (key_of : page -> option str) (k : str) (pages : list page) : 0 <= occurrences key_of k pages.
Proof. unfold occurrences, len. lia. Qed.

(** A page without a key, or with the empty key, leaves the table as it is. *)
Lemma count_entry_skip (key_of : page -> option str) (pages : list page) (p : page) (k : str) :
  key_of p = None \/ key_of p = Some [] ->
  count_entry key_of k (pages ++ [p]) = count_entry key_of k pages.
Proof.
  intros Hp. unfold count_entry. destruct k as [|c k]; [reflexivity|].
  rewrite occurrences_snoc, bool_decide_eq_false_2, Z.add_0_r; [reflexivity|].
  destruct Hp as [-> | ->]; discriminate.
Qed.

(** A page with a key that is not empty bumps that key's entry. *)
Lemma count_entry_bump (key_of : page -> option str) (counts : gmap str Z)
    (pages : list page) (p : page) (key : str) :
  (forall k, counts !! k = count_entry key_of k pages) ->
  key_of p = Some key -> key <> [] ->
  forall k, bump key counts !! k = count_entry key_of k (pages ++ [p]).
Proof.
  intros Hc Hp Hne k. unfold bump.
  destruct (decide (key = k)) as [<-|Hk].
  - rewrite lookup_insert_eq, Hc. unfold count_entry.
    destruct key as [|c key]; [congruence|].
    rewrite occurrences_snoc, bool_decide_eq_true_2 by exact Hp.
    pose proof (occurrences_nonneg key_of (c :: key) pages) as Hn.
    destruct (occurrences key_of (c :: key) pages =? 0) eqn:E0.
    + apply Z.eqb_eq in E0. rewrite E0. reflexivity.
    + apply Z.eqb_neq in E0. simpl.
      destruct (occurrences key_of (c :: key) pages + 1 =? 0) eqn:E1; [|reflexivity].
      apply Z.eqb_eq in E1. lia.
  - rewrite lookup_insert_ne, Hc by exact Hk. unfold count_entry.
    destruct k as [|c k]; [reflexivity|].
    rewrite occurrences_snoc, bool_decide_eq_false_2, Z.add_0_r; [reflexivity|].
    rewrite Hp. congruence.
Qed.

Lemma last_cons_default {A} (x : A) (l : list A) d : last (x :: l) = Some (List.last (x :: l) d).
Proof.
  revert x. induction l as [|y l IH]; intros x; [reflexivity|].
  rewrite last_cons_cons. apply IH.
Qed.

Lemma scan_counts (pages : list page) :
  (forall k, header_counts (scan pages) !! k = count_entry head_key k pages)
  /\ (forall k, footer_counts (scan pages) !! k = count_entry tail_key k pages).
Proof.
  induction pages as [|p pages [IHh IHf]] using rev_ind.
  - split; intros [|c k]; reflexivity.
  - rewrite scan_snoc. unfold scan_step.
    destruct (nonblank_lines (text p)) as [|first rest] eqn:E.
    + split; intros k; cbn [header_counts footer_counts].
      * rewrite count_entry_skip; [apply IHh|]. left. unfold head_key. now rewrite E.
      * rewrite count_entry_skip; [apply IHf|]. left. unfold tail_key. now rewrite E.
    + assert (Hh : head_key p = Some (_normalize_line first))
        by (unfold head_key; now rewrite E).
      assert (Ht : tail_key p = Some (_normalize_line (List.last (first :: rest) first)))
        by (unfold tail_key; now rewrite E, (last_cons_default first rest first)).
      set (final := List.last (first :: rest) first) in *.
      split; intros k; cbv zeta; cbn [header_counts footer_counts].
      * destruct (_normalize_line first) as [|c key] eqn:En.
        -- rewrite count_entry_skip; [apply IHh | now right].
        -- now apply count_entry_bump.
      * destruct (_normalize_line final) as [|c key] eqn:En.
        -- rewrite count_entry_skip; [apply IHf | now right].
        -- now apply count_entry_bump.
Qed.

Lemma count_entry_default (key_of : page -> option str) (k : str) (pages : list page) :
  k <> [] -> default 0 (count_entry key_of k pages) = occurrences key_of k pages.
Proof.
  intros Hk. unfold count_entry. destruct k as [|c k]; [congruence|].
  destruct (occurrences key_of (c :: k) pages =? 0) eqn:E; [|reflexivity].
  apply Z.eqb_eq in E. now rewrite E.
Qed.

Lemma elem_of_recurring_keys (counts : gmap str Z) (thr : Z) (k : str) :
  k ∈ recurring_keys counts thr <-> exists v, counts !! k = Some v /\ thr <= v.
Proof.
  unfold recurring_keys. rewrite elem_of_dom. unfold is_Some.
  split; intros [v Hv]; exists v.
  - now apply map_lookup_filter_Some in Hv.
  - now apply map_lookup_filter_Some.
Qed.

Lemma elem_of_recurring_keys_default (counts : gmap str Z) (thr : Z) (k : str) :
  0 < thr -> k ∈ recurring_keys counts thr <-> thr <= default 0 (counts !! k).
Proof.
  intros Ht. rewrite elem_of_recurring_keys. split.
  - intros (v & -> & Hv). exact Hv.
  - destruct (counts !! k) as [v|]; simpl; [|lia]. intros Hv. now exists v.
Qed.

(** C4: for a document of fewer than 2^52 pages (more than a list can
    hold) the threshold is [max(3, floor(pageCount / 5))], the exact
    integer floor; a key is a recurring header (footer) exactly when its
    count in the header (footer) table reaches the threshold; the count of
    a key that is not empty is the number of pages whose first (last)
    non-blank line has that key; the empty key has no entry and is in
    neither set. *)
Theorem recurring_keys_threshold (pages : list page) :
  Z.of_nat (length pages) < 2 ^ 52 ->
  let thr := Z.max 3 (len pages / 5) in
  recurring_threshold_of (length pages) = Ok thr
  /\ (forall k, k ∈ recurring_headers pages thr
                <-> thr <= default 0 (header_counts (scan pages) !! k))
  /\ (forall k, k ∈ recurring_footers pages thr
                <-> thr <= default 0 (footer_counts (scan pages) !! k))
  /\ (forall k, k <> [] ->
        default 0 (header_counts (scan pages) !! k) = occurrences head_key k pages
        /\ default 0 (footer_counts (scan pages) !! k) = occurrences tail_key k pages)
  /\ header_counts (scan pages) !! [] = None
  /\ footer_counts (scan pages) !! [] = None
  /\ ([] ∉ recurring_headers pages thr)
  /\ ([] ∉ recurring_footers pages thr).
Proof.
  intros Hlen thr. destruct (scan_counts pages) as [Hh Hf].
  assert (Ht : 0 < thr) by (unfold thr; lia).
  split; [now apply recurring_threshold_exact|].
  split; [intros k; now apply elem_of_recurring_keys_default|].
  split; [intros k; now apply elem_of_recurring_keys_default|].
  split; [intros k Hk; rewrite Hh, Hf; split; now apply count_entry_default|].
  split; [now rewrite Hh|]. split; [now rewrite Hf|].
  split; intros Hin; apply elem_of_recurring_keys in Hin as (v & Hv & _).
  - now rewrite Hh in Hv.
  - now rewrite Hf in Hv.
Qed.

Lemma recurring_keys_threshold_witness :
  recurring_threshold_of (length doc10) = Ok 3
  /\ lit "chapter title" ∈ recurring_headers doc10 3
  /\ lit "page footer" ∈ recurring_footers doc10 3.
Proof.
  pose proof (recurring_keys_threshold doc10 ltac:(vm_compute; reflexivity))
    as (Ht & Hh & Hf & _).
  split; [exact Ht|].
  split; [apply Hh | apply Hf]; vm_compute; discriminate.
Defined.

(** ** The second loop *)

Section Loop.
Context (classify : page -> Z -> bool) (H F : gset str).

Lemma omap_id_cons {A} (o : option A) (l : list (option A)) :
  omap id (o :: l) = match o with Some y => y :: omap id l | None => omap id l end.
Proof. reflexivity. Qed.

(** The loop never indexes [page_lines] out of range, and what it appends
    at iteration [idx] is the [verdict] at [idx]. *)
Lemma clean_loop_spec (pre : list (list str)) (pages cleaned_pages : list page) :
  clean_loop classify (pre ++ map (fun p => nonblank_lines (text p)) pages) H F
    (length pre) pages cleaned_pages
  = Ok (cleaned_pages
        ++ omap id (imap (fun i => verdict classify H F (length pre + i)) pages)).
Proof.
  revert pre cleaned_pages. induction pages as [|p pages IH]; intros pre cleaned_pages.
  - simpl. now rewrite app_nil_r.
  - cbn [clean_loop map]. unfold list_get at 1.
    rewrite list_lookup_middle by reflexivity. cbn [mbind result_bind].
    rewrite imap_cons, omap_id_cons.
    assert (Hnext : forall acc,
      clean_loop classify (pre ++ nonblank_lines (text p)
                               :: map (fun p => nonblank_lines (text p)) pages)
        H F (S (length pre)) pages acc
      = Ok (acc ++ omap id (imap ((fun i => verdict classify H F (length pre + i)) ∘ S) pages))).
    { intros acc. specialize (IH (pre ++ [nonblank_lines (text p)]) acc).
      rewrite <- app_assoc in IH. simpl in IH.
      rewrite length_app in IH. simpl in IH.
      replace (length pre + 1)%nat with (S (length pre)) in IH by lia.
      rewrite IH.
      rewrite (imap_ext (fun i => verdict classify H F (S (length pre) + i))
                 ((fun i => verdict classify H F (length pre + i)) ∘ S)); [reflexivity|].
      intros i x _. simpl. f_equal. lia. }
    unfold verdict at 1. unfold candidate_of. cbn [text].
    replace (length pre + 0)%nat with (length pre) by lia.
    destruct (classify _ _); [apply Hnext|].
    destruct (strip _) eqn:Es; [apply Hnext|].
    rewrite Hnext, <- app_assoc. reflexivity.
Qed.

End Loop.

Lemma filter_pages_spec (classify : page -> Z -> bool) (pages : list page) (thr : Z) :
  recurring_threshold_of (length pages) = Ok thr ->
  filter_pages classify pages
  = Ok (omap id (imap (verdict classify (recurring_headers pages thr)
                         (recurring_footers pages thr)) pages)).
Proof.
  intros Ht. unfold filter_pages. rewrite Ht. cbn [mbind result_bind].
  rewrite scan_page_lines.
  apply (clean_loop_spec classify (recurring_headers pages thr)
           (recurring_footers pages thr) [] pages []).
Qed.

Lemma sublist_omap_imap {A B C} (f : nat -> A -> option B) (g : B -> C) (h : A -> C)
    (l : list A) :
  (forall i x y, f i x = Some y -> g y = h x) ->
  map g (omap id (imap f l)) `sublist_of` map h l.
Proof.
  revert f. induction l as [|x l IH]; intros f Hf; [constructor|].
  rewrite imap_cons, omap_id_cons. destruct (f O x) as [y|] eqn:E.
  - simpl. rewrite (Hf O x y E). apply sublist_skip, IH.
    intros i x' y'. apply (Hf (S i)).
  - simpl. apply sublist_cons, IH. intros i x' y'. apply (Hf (S i)).
Qed.

Lemma Forall_omap_imap {A B} (P : B -> Prop) (f : nat -> A -> option B) (l : list A) :
  (forall i x y, f i x = Some y -> P y) -> Forall P (omap id (imap f l)).
Proof.
  revert f. induction l as [|x l IH]; intros f Hf; [constructor|].
  rewrite imap_cons, omap_id_cons. destruct (f O x) as [y|] eqn:E.
  - constructor; [exact (Hf O x y E)|]. apply IH. intros i x' y'. apply (Hf (S i)).
  - apply IH. intros i x' y'. apply (Hf (S i)).
Qed.

Lemma verdict_Some (classify : page -> Z -> bool) (H F : gset str) (i : nat) (p c : page) :
  verdict classify H F i p = Some c ->
  c = candidate_of H F p /\ classify c (Z.of_nat i + 1) = false /\ text c <> [].
Proof.
  unfold verdict. destruct (classify _ _) eqn:Ec; [discriminate|].
  destruct (text (candidate_of H F p)) eqn:Et; [discriminate|].
  intros [= <-]. rewrite Et. auto.
Qed.

Lemma filter_pages_total (classify : page -> Z -> bool) (pages : list page) :
  exists thr,
    recurring_threshold_of (length pages) = Ok thr
    /\ filter_pages classify pages
       = Ok (omap id (imap (verdict classify (recurring_headers pages thr)
                              (recurring_footers pages thr)) pages)).
Proof.
  destruct (recurring_threshold_total (length pages)) as (thr & Ht & _).
  exists thr. split; [exact Ht|]. now apply filter_pages_spec.
Qed.

(** The fallback of line 112. *)
Lemma preprocess_pages_eq (pages cleaned : list page) :
  filter_pages _is_noise_page pages = Ok cleaned ->
  _preprocess_pages pages = Ok (match cleaned with [] => pages | _ => cleaned end).
Proof.
  intros Hf. unfold _preprocess_pages, preprocess_pages_with.
  destruct pages as [|p pages].
  - destruct (filter_pages_total _is_noise_page []) as (thr & _ & Hf').
    rewrite Hf in Hf'. now injection Hf' as ->.
  - now rewrite Hf.
Qed.

(** C6: whatever the classifier, the second loop asks it about the
    candidate of the i-th input page (from 0) at position [i + 1], the loop
    counter over the input, and keeps the candidate exactly when the answer
    is "not noise" and the candidate's text is not empty.  The position
    depends on the page's place in the input alone, not on what was kept
    or dropped before it. *)
Theorem logical_position_is_loop_counter (classify : page -> Z -> bool) (pages : list page) :
  exists thr,
    recurring_threshold_of (length pages) = Ok thr
    /\ filter_pages classify pages
       = Ok (omap id
               (imap (fun i p =>
                        let candidate :=
                          candidate_of (recurring_headers pages thr)
                            (recurring_footers pages thr) p in
                        if classify candidate (Z.of_nat i + 1) then None
                        else match text candidate with
                             | [] => None
                             | _ => Some candidate
                             end)
                  pages)).
Proof.
  destruct (recurring_threshold_total (length pages)) as (thr & Ht & _).
  exists thr. split; [exact Ht|].
  rewrite (filter_pages_spec classify pages thr Ht).
  do 2 f_equal.
Qed.

(** C1: [_preprocess_pages] raises nothing: its second loop ends with
    some list [cleaned], and the result is the input when [cleaned] is
    empty and [cleaned] otherwise.  So the empty input is returned as it is,
    and the result for an input that is not empty is not empty. *)
Theorem preprocess_pages_total (pages : list page) :
  exists cleaned,
    filter_pages _is_noise_page pages = Ok cleaned
    /\ _preprocess_pages pages = Ok (match cleaned with [] => pages | _ => cleaned end)
    /\ (pages = [] -> _preprocess_pages pages = Ok pages)
    /\ (cleaned = [] -> _preprocess_pages pages = Ok pages)
    /\ (pages <> [] -> exists out, _preprocess_pages pages = Ok out /\ out <> []).
Proof.
  destruct (filter_pages_total _is_noise_page pages) as (thr & _ & Hf).
  eexists. split; [exact Hf|].
  pose proof (preprocess_pages_eq _ _ Hf) as E.
  set (cleaned := omap id _) in *.
  split; [exact E|]. split; [|split].
  - intros ->. reflexivity.
  - intros Hc. now rewrite E, Hc.
  - intros Hne. eexists. split; [exact E|]. now destruct cleaned.
Qed.

Lemma preprocess_pages_total_witness :
  _preprocess_pages [Page 1 (lit "too short"); Page 2 []]
  = Ok [Page 1 (lit "too short"); Page 2 []].
Proof.
  destruct (preprocess_pages_total [Page 1 (lit "too short"); Page 2 []])
    as (cleaned & Hf & _ & _ & Hempty & _).
  apply Hempty. vm_compute in Hf. now injection Hf.
Defined.

(** C2: the result is never longer than the input, and its page numbers
    are a subsequence of the input's page numbers: same relative order,
    nothing new; so it is when the filter's list is returned and when the
    input is. *)
Theorem preprocess_pages_subsequence (pages : list page) :
  exists out,
    _preprocess_pages pages = Ok out
    /\ (length out <= length pages)%nat
    /\ map page_number out `sublist_of` map page_number pages.
Proof.
  destruct (filter_pages_total _is_noise_page pages) as (thr & _ & Hf).
  eexists. split; [exact (preprocess_pages_eq _ _ Hf)|].
  set (cleaned := omap id _).
  assert (Hsub : map page_number cleaned `sublist_of` map page_number pages).
  { apply sublist_omap_imap. intros i p c Hv.
    apply verdict_Some in Hv as [-> _]. reflexivity. }
  destruct cleaned as [|c cleaned'] eqn:Ec.
  - split; [lia | reflexivity].
  - split; [|exact Hsub].
    apply sublist_length in Hsub. now rewrite !length_map in Hsub.
Qed.



(** C8: with the switch off, [clean] returns the raw pages as they are,
    whatever they hold; [_preprocess_pages] is not called.  The switch is
    off when the environment variable is set to anything that does not
    lowercase to [true]. *)
Theorem clean_disabled_is_identity (raw_pages : list page) :
  clean false raw_pages = Ok raw_pages
  /\ (forall extracted,
        extract_text_by_page false (Some extracted) = Ok (raw_pages_from 0 extracted))
  /\ ENABLE_TEXT_PREPROCESSING None = true
  /\ ENABLE_TEXT_PREPROCESSING (Some (lit "True")) = true
  /\ ENABLE_TEXT_PREPROCESSING (Some (lit "false")) = false
  /\ ENABLE_TEXT_PREPROCESSING (Some (lit "0")) = false.
Proof. repeat split. Qed.

(** ** The examples of the specification *)

(** Ten pages with one running header and footer: the threshold is 3, both
    keys recur, and no cleaned page starts or ends with those lines. *)
Example doc10_stripped :
  recurring_threshold_of (length doc10) = Ok 3
  /\ header_counts (scan doc10) !! lit "chapter title" = Some 10
  /\ footer_counts (scan doc10) !! lit "page footer" = Some 10
  /\ lit "chapter title" ∈ recurring_headers doc10 3
  /\ lit "page footer" ∈ recurring_footers doc10 3
  /\ _preprocess_pages doc10
     = Ok (map (fun i => Page i twenty_words) [1; 2; 3; 4; 5; 6; 7; 8; 9; 10]).
Proof.
  split; [reflexivity|]. split; [reflexivity|]. split; [reflexivity|].
  split; [|split].
  - apply elem_of_recurring_keys. exists 10. split; [reflexivity | lia].
  - apply elem_of_recurring_keys. exists 10. split; [reflexivity | lia].
  - vm_compute. reflexivity.
Qed.

(** Five pages: the threshold is 3, and a line that opens two pages does
    not recur. *)
Example doc5_not_recurring :
  recurring_threshold_of (length doc5) = Ok 3
  /\ header_counts (scan doc5) !! lit "seen twice" = Some 2
  /\ lit "seen twice" ∉ recurring_headers doc5 3.
Proof.
  split; [reflexivity|]. split; [reflexivity|].
  unfold recurring_headers. intros (v & Hv & Hle)%elem_of_recurring_keys.
  change (header_counts (scan doc5) !! lit "seen twice") with (Some 2) in Hv.
  injection Hv as <-. lia.
Qed.

(** A page of fifty words with a table of contents is noise at position 3
    and is kept at position 20. *)
Example contents_page_position :
  token_count (text contents_page) = 50
  /\ _is_noise_page contents_page 3 = true
  /\ _is_noise_page contents_page 20 = false.
Proof. repeat split. Qed.

(** Three pages with a shared header and footer: two keep their body, the
    third is left empty and is dropped. *)
Example doc3_end_to_end :
  _preprocess_pages doc3
  = Ok [Page 1 twenty_words; Page 2 (lit "more " ++ twenty_words)].
Proof. vm_compute. reflexivity. Qed.

(** A document whose pages are all too short comes back as it is. *)
Example all_noise_fallback :
  filter_pages _is_noise_page [Page 1 (lit "title"); Page 2 (lit "the end")] = Ok []
  /\ _preprocess_pages [Page 1 (lit "title"); Page 2 (lit "the end")]
     = Ok [Page 1 (lit "title"); Page 2 (lit "the end")].
Proof. split; vm_compute; reflexivity. Qed.

(** The position is the loop counter: in [doc16] the first page is dropped,
    so the last page is the fifteenth candidate that could be kept, yet it
    is classified at position 16 and kept; at position 15 it would be
    noise. *)
Example doc16_position :
  (map page_number <$> _preprocess_pages doc16)
  = Ok [2; 3; 4; 5; 6; 7; 8; 9; 10; 11; 12; 13; 14; 15; 16]
  /\ _is_noise_page (Page 16 (lit "index " ++ twenty_words)) 16 = false
  /\ _is_noise_page (Page 16 (lit "index " ++ twenty_words)) 15 = true.
Proof. repeat split; vm_compute; reflexivity. Qed.

(** * Further properties of the pipeline *)

(** ** Edge stripping *)

Lemma drop_while_fixed {A} (f : A -> bool) (l : list A) :
  (forall x r, l = x :: r -> f x = false) -> drop_while f l = l.
Proof.
  destruct l as [|x r]; [reflexivity|]. intros H. apply drop_while_stop. now apply (H x r).
Qed.

Lemma drop_while_end_fixed {A} (f : A -> bool) (l : list A) :
  (forall r x, l = r ++ [x] -> f x = false) -> drop_while_end f l = l.
Proof.
  destruct l as [|x r _] using rev_ind; [reflexivity|].
  intros H. apply drop_while_end_stop. now apply (H r x).
Qed.

Lemma drop_while_never {A} (f : A -> bool) (l : list A) :
  (forall x, f x = false) -> drop_while f l = l /\ drop_while_end f l = l.
Proof.
  intros Hf. split.
  - apply drop_while_fixed. intros x r _. apply Hf.
  - apply drop_while_end_fixed. intros r x _. apply Hf.
Qed.

(** Stripping a second time with the same key sets removes nothing more,
    and the result is never longer than the input. *)
Theorem strip_recurring_edges_idempotent (lines : list str) (H F : gset str) :
  _strip_recurring_edges (_strip_recurring_edges lines H F) H F
  = _strip_recurring_edges lines H F
  /\ (length (_strip_recurring_edges lines H F) <= length lines)%nat.
Proof.
  destruct (strip_recurring_edges_split lines H F) as (pre & suf & E & _ & _ & Hfront).
  set (out := _strip_recurring_edges lines H F) in *.
  split.
  - rewrite (strip_recurring_edges_drop out).
    rewrite drop_while_fixed.
    + apply drop_while_end_fixed. intros r x Eo.
      unfold out in Eo. rewrite strip_recurring_edges_drop in Eo.
      exact (drop_while_end_last _ _ _ _ Eo).
    + intros x r Eo. apply in_keys_false. apply (Hfront x (r ++ suf)). now rewrite Eo.
  - apply (f_equal length) in E. rewrite !length_app in E. lia.
Qed.

(** Without recurring keys nothing is stripped. *)
Lemma strip_recurring_edges_empty (lines : list str) :
  _strip_recurring_edges lines ∅ ∅ = lines.
Proof.
  rewrite strip_recurring_edges_drop.
  assert (Hf : forall l, in_keys ∅ l = false)
    by (intros l; apply in_keys_false; apply not_elem_of_empty).
  rewrite (proj1 (drop_while_never _ lines Hf)).
  apply (proj2 (drop_while_never _ lines Hf)).
Qed.

(** ** How often a key must occur *)

Lemma occurrences_le (key_of : page -> option str) (k : str) (pages : list page) :
  occurrences key_of k pages <= len pages.
Proof.
  unfold occurrences, len. apply inj_le.
  induction pages as [|p pages IH]; simpl; [lia|].
  destruct (bool_decide _); simpl; lia.
Qed.

Lemma recurring_keys_occurrences (key_of : page -> option str) (counts : gmap str Z)
    (pages : list page) (thr : Z) (k : str) :
  (forall k, counts !! k = count_entry key_of k pages) ->
  k ∈ recurring_keys counts thr ->
  k <> [] /\ thr <= occurrences key_of k pages.
Proof.
  intros Hc (v & Hv & Hle)%elem_of_recurring_keys.
  rewrite Hc in Hv. unfold count_entry in Hv.
  destruct k as [|c k]; [discriminate|]. split; [discriminate|].
  destruct (_ =? 0); [discriminate|]. now injection Hv as <-.
Qed.

(** A line recurs only when its key opens (closes) at least three pages:
    the threshold the code computes is at least 3 whatever the length, and
    a key in a recurring set is not empty and occurs at least that often.
    So a document of fewer than three pages has no recurring header or
    footer. *)
Theorem recurring_needs_three_pages (pages : list page) (thr : Z) :
  recurring_threshold_of (length pages) = Ok thr ->
  3 <= thr
  /\ (forall k, k ∈ recurring_headers pages thr ->
        k <> [] /\ thr <= occurrences head_key k pages <= len pages)
  /\ (forall k, k ∈ recurring_footers pages thr ->
        k <> [] /\ thr <= occurrences tail_key k pages <= len pages)
  /\ ((length pages < 3)%nat ->
        recurring_headers pages thr = ∅ /\ recurring_footers pages thr = ∅).
Proof.
  intros Ht. destruct (recurring_threshold_total (length pages)) as (thr' & Ht' & H3).
  rewrite Ht in Ht'. injection Ht' as <-.
  destruct (scan_counts pages) as [Hh Hf].
  assert (HH : forall k, k ∈ recurring_headers pages thr ->
             k <> [] /\ thr <= occurrences head_key k pages <= len pages).
  { intros k Hk. destruct (recurring_keys_occurrences _ _ _ _ _ Hh Hk) as [Hne Hle].
    pose proof (occurrences_le head_key k pages). auto. }
  assert (HF : forall k, k ∈ recurring_footers pages thr ->
             k <> [] /\ thr <= occurrences tail_key k pages <= len pages).
  { intros k Hk. destruct (recurring_keys_occurrences _ _ _ _ _ Hf Hk) as [Hne Hle].
    pose proof (occurrences_le tail_key k pages). auto. }
  split; [exact H3|]. split; [exact HH|]. split; [exact HF|].
  intros Hlen. unfold len in *. split; apply set_eq; intros k; split.
  - intros Hk. apply HH in Hk. lia.
  - intros Hk. now apply not_elem_of_empty in Hk.
  - intros Hk. apply HF in Hk. lia.
  - intros Hk. now apply not_elem_of_empty in Hk.
Qed.

Lemma recurring_needs_three_pages_witness :
  recurring_headers [Page 1 (lit "Same line"); Page 2 (lit "Same line")] 3 = ∅.
Proof.
  apply (proj2 (proj2 (proj2 (recurring_needs_three_pages
           [Page 1 (lit "Same line"); Page 2 (lit "Same line")] 3 eq_refl)))).
  simpl. lia.
Defined.

(** ** Lines: splitting and joining *)

Lemma no_linebreak_rev (l : str) : no_linebreak (rev l) = no_linebreak l.
Proof.
  unfold no_linebreak. destruct (forallb _ l) eqn:E.
  - rewrite forallb_forall in *. intros c Hc. apply E. now apply in_rev.
  - destruct (forallb _ (rev l)) eqn:E'; [|reflexivity].
    rewrite <- E. symmetry. rewrite forallb_forall in *.
    intros c Hc. apply E'. now apply in_rev in Hc.
Qed.

Lemma flush_no_linebreak (cur : str) :
  no_linebreak cur = true -> Forall (fun l => no_linebreak l = true) (flush cur).
Proof.
  intros H. destruct cur; [constructor|]. constructor; [|constructor].
  now rewrite no_linebreak_rev.
Qed.

Lemma splitlines_from_no_linebreak (n : nat) (s cur : str) :
  (length s <= n)%nat -> no_linebreak cur = true ->
  Forall (fun l => no_linebreak l = true) (splitlines_from cur s).
Proof.
  revert s cur. induction n as [|n IH]; intros s cur Hn Hc.
  - destruct s; [|simpl in Hn; lia]. now apply flush_no_linebreak.
  - destruct s as [|c r]; [now apply flush_no_linebreak|].
    simpl in Hn. cbn [splitlines_from].
    destruct (is_linebreak c) eqn:Ec.
    + constructor; [now rewrite no_linebreak_rev|].
      destruct r as [|c' r']; [constructor|].
      destruct (_ && _); apply IH; try reflexivity; simpl in *; lia.
    + apply IH; [lia|]. unfold no_linebreak in *. simpl. now rewrite Ec.
Qed.

Lemma no_linebreak_strip (l : str) : no_linebreak l = true -> no_linebreak (strip l) = true.
Proof.
  intros H. destruct (strip_split l) as (w1 & w2 & E & _).
  unfold no_linebreak in *. rewrite E, !forallb_app in H.
  apply andb_true_iff in H as [_ H]. now apply andb_true_iff in H as [H _].
Qed.

Lemma nonblank_lines_Forall (text : str) : Forall clean_line (nonblank_lines text).
Proof.
  unfold nonblank_lines. apply Forall_forall. intros l Hl.
  apply list_elem_of_In, in_map_iff in Hl as (ln & <- & Hln).
  apply filter_In in Hln as [Hin Hne].
  apply negb_true_iff, bool_decide_eq_false in Hne.
  split; [exact Hne|]. split; [apply strip_trimmed|].
  apply no_linebreak_strip.
  pose proof (splitlines_from_no_linebreak (length text) text [] (le_n _) eq_refl) as Hall.
  rewrite Forall_forall in Hall. apply Hall. now apply list_elem_of_In.
Qed.

Lemma splitlines_from_line (cur l : str) :
  no_linebreak l = true -> splitlines_from cur l = flush (rev l ++ cur).
Proof.
  revert cur. induction l as [|c l IH]; intros cur Hl; [reflexivity|].
  unfold no_linebreak in Hl. simpl in Hl. apply andb_true_iff in Hl as [Hc Hl].
  apply negb_true_iff in Hc. cbn [splitlines_from]. rewrite Hc.
  rewrite IH by exact Hl. simpl. now rewrite <- app_assoc.
Qed.

Lemma splitlines_from_newline (cur l rest : str) :
  no_linebreak l = true ->
  splitlines_from cur (l ++ LF :: rest) = (rev cur ++ l) :: splitlines_from [] rest.
Proof.
  revert cur. induction l as [|c l IH]; intros cur Hl.
  - simpl app. cbn [splitlines_from]. change (is_linebreak LF) with true.
    rewrite app_nil_r. cbv iota. f_equal. now destruct rest.
  - unfold no_linebreak in Hl. simpl in Hl. apply andb_true_iff in Hl as [Hc Hl].
    apply negb_true_iff in Hc. simpl app. cbn [splitlines_from]. rewrite Hc.
    rewrite IH by exact Hl. simpl. now rewrite <- app_assoc.
Qed.

Lemma join_lines_cons (l : str) (rest : list str) :
  join_lines (l :: rest) = l ++ match rest with [] => [] | _ => LF :: join_lines rest end.
Proof. destruct rest; simpl; [now rewrite app_nil_r | reflexivity]. Qed.

Lemma join_lines_snoc (lines : list str) (l : str) :
  join_lines (lines ++ [l])
  = match lines with [] => l | _ => join_lines lines ++ LF :: l end.
Proof.
  induction lines as [|l0 lines IH]; [reflexivity|].
  change ((l0 :: lines) ++ [l]) with (l0 :: (lines ++ [l])).
  rewrite !join_lines_cons, IH.
  destruct lines as [|l1 lines]; simpl.
  - now rewrite app_nil_r.
  - now rewrite <- app_assoc.
Qed.

(** Splitting the joined lines gives the lines back. *)
Lemma splitlines_join (lines : list str) :
  Forall clean_line lines -> splitlines (join_lines lines) = lines.
Proof.
  unfold splitlines. induction 1 as [|l rest (Hne & _ & Hnb) Hrest IH]; [reflexivity|].
  rewrite join_lines_cons. destruct rest as [|l' rest'].
  - rewrite app_nil_r, splitlines_from_line by exact Hnb.
    rewrite app_nil_r. destruct l as [|c l0]; [congruence|].
    unfold flush. destruct (rev (c :: l0)) eqn:E.
    + apply (f_equal (@rev ascii)) in E. rewrite rev_involutive in E. discriminate.
    + now rewrite <- E, rev_involutive.
  - rewrite splitlines_from_newline by exact Hnb. simpl rev. simpl app. now rewrite IH.
Qed.

Lemma join_lines_trimmed (lines : list str) :
  Forall clean_line lines -> trimmed (join_lines lines).
Proof.
  intros Hall. apply trimmed_intro.
  - intros c r E. destruct Hall as [|l rest (Hne & Ht & _) _]; [discriminate|].
    rewrite join_lines_cons in E. destruct l as [|c0 l0]; [congruence|].
    injection E as <- _. exact (trimmed_head _ _ Ht).
  - intros r c E. destruct lines as [|l0 lines0 _] using rev_ind; [now destruct r|].
    apply Forall_app in Hall as [_ Hl]. apply Forall_inv in Hl as (Hne & Ht & _).
    rewrite join_lines_snoc in E.
    destruct l0 as [|c0 l0' _] using rev_ind; [congruence|].
    assert (c = c0).
    { destruct lines0.
      - now apply app_inj_tail in E as [_ E].
      - rewrite app_comm_cons, app_assoc in E. now apply app_inj_tail in E as [_ E]. }
    subst c0. exact (trimmed_last _ _ Ht).
Qed.

Lemma nonblank_lines_join (lines : list str) :
  Forall clean_line lines -> nonblank_lines (join_lines lines) = lines.
Proof.
  intros Hall. unfold nonblank_lines. rewrite splitlines_join by exact Hall.
  induction Hall as [|l rest (Hne & Ht & _) _ IH]; [reflexivity|].
  simpl. rewrite (trimmed_strip l Ht).
  rewrite bool_decide_eq_false_2 by exact Hne. simpl.
  now rewrite (trimmed_strip l Ht), IH.
Qed.

(** The lines the pipeline works on are not empty, have no whitespace at
    either end and hold no line boundary; joined by newlines and split
    again they come back as they were. *)
Theorem nonblank_lines_clean (text : str) :
  Forall clean_line (nonblank_lines text)
  /\ nonblank_lines (join_lines (nonblank_lines text)) = nonblank_lines text
  /\ strip (join_lines (nonblank_lines text)) = join_lines (nonblank_lines text).
Proof.
  pose proof (nonblank_lines_Forall text) as H.
  split; [exact H|]. split; [now apply nonblank_lines_join|].
  now apply trimmed_strip, join_lines_trimmed.
Qed.

Lemma Forall_take_drop {A} (P : A -> Prop) (l : list A) (i n : nat) :
  Forall P l -> Forall P (take n (drop i l)).
Proof. intros H. now apply Forall_take, Forall_drop. Qed.

(** What cleaning does to one page, whatever the recurring sets: the
    candidate keeps the page number, and its text is a contiguous run
    [lines[i:j]] of the page's non-blank, trimmed lines joined by newlines;
    lines are never changed or reordered, and the text splits back into
    exactly that run. *)
Theorem candidate_lines (H F : gset str) (p : page) :
  page_number (candidate_of H F p) = page_number p
  /\ exists i j : nat,
       (i <= j <= length (nonblank_lines (text p)))%nat
       /\ text (candidate_of H F p)
          = join_lines (take (j - i) (drop i (nonblank_lines (text p))))
       /\ nonblank_lines (text (candidate_of H F p))
          = take (j - i) (drop i (nonblank_lines (text p)))
       /\ trimmed (text (candidate_of H F p)).
Proof.
  split; [reflexivity|].
  destruct (strip_recurring_edges_split (nonblank_lines (text p)) H F)
    as (pre & suf & E & _).
  set (lines := nonblank_lines (text p)) in *.
  set (out := _strip_recurring_edges lines H F) in *.
  assert (Eout : out = take (length pre + length out - length pre) (drop (length pre) lines)).
  { transitivity (take (length out) (drop (length pre) (pre ++ out ++ suf))).
    - now rewrite drop_app_length, take_app_length.
    - rewrite <- E. f_equal. lia. }
  assert (Hclean : Forall clean_line out).
  { rewrite Eout. apply Forall_take_drop, nonblank_lines_Forall. }
  exists (length pre), (length pre + length out)%nat.
  unfold candidate_of. cbn [text]. fold lines. fold out.
  rewrite (trimmed_strip _ (join_lines_trimmed out Hclean)).
  split; [rewrite E, !length_app; lia|].
  split; [now rewrite <- Eout|].
  split; [rewrite <- Eout; now apply nonblank_lines_join|].
  now apply join_lines_trimmed.
Qed.

(** ** What the key of a line and the classifier do not see *)

Lemma lower_char_idem c : lower_char (lower_char c) = lower_char c.
Proof. each_char c. Qed.

Lemma lower_idem (s : str) : lower (lower s) = lower s.
Proof.
  unfold lower. rewrite map_map. apply map_ext. intros c. apply lower_char_idem.
Qed.

Lemma lower_app (a b : str) : lower (a ++ b) = lower a ++ lower b.
Proof. apply map_app. Qed.

Lemma lstrip_lower (s : str) : lstrip (lower s) = lower (lstrip s).
Proof.
  unfold lstrip. induction s as [|c r IH]; [reflexivity|].
  simpl. rewrite isspace_lower_char. destruct (isspace c); [exact IH | reflexivity].
Qed.

Lemma rstrip_lower (s : str) : rstrip (lower s) = lower (rstrip s).
Proof.
  unfold rstrip, drop_while_end.
  assert (E : rev (lower s) = lower (rev s)) by (unfold lower; now rewrite map_rev).
  rewrite E. change (drop_while isspace (lower (rev s))) with (lstrip (lower (rev s))).
  rewrite lstrip_lower. unfold lower. now rewrite map_rev.
Qed.

Lemma strip_lower (s : str) : strip (lower s) = lower (strip s).
Proof. unfold strip. now rewrite lstrip_lower, rstrip_lower. Qed.

Lemma forallb_isspace_lower (s : str) : forallb isspace (lower s) = forallb isspace s.
Proof.
  induction s as [|c r IH]; [reflexivity|]. simpl. now rewrite isspace_lower_char, IH.
Qed.

Lemma drop_while_app {A} (f : A -> bool) (a b : list A) :
  drop_while f (a ++ b)
  = match drop_while f a with [] => drop_while f b | t => t ++ b end.
Proof.
  induction a as [|x a IH]; [reflexivity|]. simpl. destruct (f x); [exact IH | reflexivity].
Qed.

(** Whitespace around a string does not change what [strip] returns. *)
Lemma strip_app_space (w1 s w2 : str) :
  forallb isspace w1 = true -> forallb isspace w2 = true ->
  strip (w1 ++ s ++ w2) = strip s.
Proof.
  intros H1 H2. unfold strip, lstrip, rstrip.
  rewrite drop_while_all by exact H1. rewrite drop_while_app.
  destruct (drop_while isspace s) as [|c t] eqn:E.
  - apply drop_while_nil_iff in H2. now rewrite H2.
  - now apply drop_while_end_all.
Qed.

Lemma lower_sub_ws_from b (s : str) : lower (sub_ws_from b s) = sub_ws_from b (lower s).
Proof.
  revert b. induction s as [|c r IH]; intros b; [reflexivity|].
  simpl. rewrite isspace_lower_char.
  destruct (isspace c), b; simpl; unfold lower in IH; now rewrite IH.
Qed.

Lemma sub_ws_from_space b (w : str) :
  forallb isspace w = true -> forallb isspace (sub_ws_from b w) = true.
Proof.
  revert b. induction w as [|c r IH]; intros b H; [reflexivity|].
  simpl in *. apply andb_true_iff in H as [Hc Hr]. rewrite Hc.
  destruct b; simpl; now rewrite IH.
Qed.

Lemma sub_ws_from_app_space_l b (w s : str) :
  w <> [] -> forallb isspace w = true ->
  exists w', forallb isspace w' = true /\ sub_ws_from b (w ++ s) = w' ++ sub_ws_from true s.
Proof.
  revert b. induction w as [|c r IH]; intros b Hne H; [congruence|].
  simpl in H. apply andb_true_iff in H as [Hc Hr]. simpl. rewrite Hc.
  destruct r as [|d r'].
  - destruct b; [now exists [] | now exists [SP]].
  - destruct (IH true ltac:(discriminate) Hr) as (w' & Hw' & E).
    destruct b; [exists w' | exists (SP :: w')]; rewrite E; auto.
Qed.

Lemma sub_ws_from_app_space_r b (r : str) c (w : str) :
  isspace c = false ->
  sub_ws_from b ((r ++ [c]) ++ w) = sub_ws_from b (r ++ [c]) ++ sub_ws_from false w.
Proof.
  intros Hc. revert b. induction r as [|d r IH]; intros b; simpl.
  - now rewrite Hc.
  - destruct (isspace d), b; simpl; now rewrite IH.
Qed.

Lemma sub_ws_from_trimmed b (t : str) : trimmed t -> sub_ws_from b t = sub_ws t.
Proof.
  intros T. destruct b; [|reflexivity]. destruct t as [|c r]; [reflexivity|].
  unfold sub_ws. simpl. now rewrite (trimmed_head _ _ T).
Qed.

(** Collapsing whitespace and stripping commute. *)
Lemma strip_sub_ws (x : str) : strip (sub_ws x) = sub_ws (strip x).
Proof.
  destruct (strip_split x) as (w1 & w2 & E & H1 & H2).
  pose proof (strip_trimmed x) as T.
  assert (Hcase : strip x = [] \/ exists r c, strip x = r ++ [c])
    by (destruct (strip x) using rev_ind; eauto).
  destruct Hcase as [Et | (r & c & Et)]; rewrite Et in *.
  - apply strip_nil_iff. apply sub_ws_from_space.
    rewrite E. simpl. now rewrite forallb_app, H1, H2.
  - pose proof (trimmed_last r c T) as Hc.
    assert (Hmid : forall b, sub_ws_from b ((r ++ [c]) ++ w2)
                             = sub_ws (r ++ [c]) ++ sub_ws_from false w2).
    { intros b. now rewrite sub_ws_from_app_space_r, (sub_ws_from_trimmed b _ T). }
    pose proof (sub_ws_from_space false w2 H2) as H2'.
    rewrite <- (trimmed_strip _ (sub_ws_trimmed _ T)).
    rewrite E. unfold sub_ws at 1. destruct w1 as [|a w1].
    + simpl app. rewrite Hmid.
      apply (strip_app_space [] (sub_ws (r ++ [c])) (sub_ws_from false w2) eq_refl H2').
    + destruct (sub_ws_from_app_space_l false (a :: w1) ((r ++ [c]) ++ w2)
                  ltac:(discriminate) H1) as (w' & Hw' & ->).
      rewrite Hmid. now apply strip_app_space.
Qed.

(** The key of a line does not depend on the case of its letters, on
    whitespace around it, or on how long its runs of whitespace are. *)
Theorem normalize_line_insensitive (x w1 w2 : str) :
  forallb isspace w1 = true -> forallb isspace w2 = true ->
  _normalize_line (w1 ++ lower x ++ w2) = _normalize_line x
  /\ _normalize_line (w1 ++ x ++ w2) = _normalize_line x
  /\ _normalize_line (sub_ws x) = _normalize_line x.
Proof.
  intros H1 H2. unfold _normalize_line. split; [|split].
  - now rewrite strip_app_space, strip_lower, lower_idem.
  - now rewrite strip_app_space.
  - rewrite strip_sub_ws. unfold sub_ws.
    now rewrite lower_sub_ws_from, sub_ws_from_idem.
Qed.

Lemma normalize_line_insensitive_witness :
  _normalize_line (lit "  " ++ lower (lit "Booktures   Vol 2") ++ lit " ")
  = _normalize_line (lit "Booktures   Vol 2").
Proof. apply (proj1 (normalize_line_insensitive _ (lit "  ") (lit " ") eq_refl eq_refl)). Defined.

Lemma token_count_app_space (w1 s w2 : str) :
  forallb isspace w1 = true -> forallb isspace w2 = true ->
  token_count (w1 ++ s ++ w2) = token_count s.
Proof.
  intros H1 H2. unfold token_count. f_equal.
  rewrite app_assoc, count_runs_space_r by exact H2.
  destruct w1 as [|c w1]; [reflexivity|]. now rewrite count_runs_space_l.
Qed.

(** The classifier looks at the text and the position only, and at the
    text up to letter case and surrounding whitespace: the page number
    plays no part. *)
Theorem is_noise_page_insensitive (n m : Z) (t w1 w2 : str) (logical_position : Z) :
  forallb isspace w1 = true -> forallb isspace w2 = true ->
  _is_noise_page (Page n (w1 ++ lower t ++ w2)) logical_position
  = _is_noise_page (Page m t) logical_position.
Proof.
  intros H1 H2.
  assert (Eb : forallb isspace (w1 ++ lower t ++ w2) = forallb isspace t)
    by (now rewrite !forallb_app, H1, H2, forallb_isspace_lower, andb_true_r).
  assert (Et : token_count (w1 ++ lower t ++ w2) = token_count t).
  { rewrite token_count_app_space by assumption.
    unfold token_count. now rewrite count_runs_lower. }
  assert (Ek : existsb (fun kw => contains kw (lower (w1 ++ lower t ++ w2)))
                 front_matter_keywords
               = existsb (fun kw => contains kw (lower t)) front_matter_keywords).
  { apply (existsb_ext_forallb _ _ edges_not_space); [apply keywords_edges|].
    intros kw Hkw. rewrite !lower_app, lower_idem.
    rewrite contains_app_space_l by (auto using lower_space).
    now rewrite contains_app_space_r by (auto using lower_space). }
  rewrite !is_noise_page_eq. cbn [text]. now rewrite Eb, Et, Ek.
Qed.

Lemma is_noise_page_insensitive_witness :
  _is_noise_page (Page 1 (lit " " ++ lower (lit "Table Of Contents") ++ [LF])) 2
  = _is_noise_page (Page 9 (lit "Table Of Contents")) 2.
Proof. apply (is_noise_page_insensitive 1 9 _ (lit " ") [LF] 2 eq_refl eq_refl). Defined.



(** ** [extract_text_by_page] *)

Lemma raw_pages_from_spec (idx : nat) (extracted : list (option str)) :
  raw_pages_from idx extracted
  = imap (fun i t => Page (Z.of_nat (idx + i) + 1) (strip (default [] t))) extracted.
Proof.
  revert idx. induction extracted as [|t rest IH]; intros idx; [reflexivity|].
  rewrite imap_cons. simpl. rewrite IH. f_equal.
  - do 2 f_equal. lia.
  - apply imap_ext. intros i x _. simpl. do 2 f_equal. lia.
Qed.

Lemma raw_pages_from_sorted (idx : nat) (extracted : list (option str)) :
  StronglySorted Z.lt (map page_number (raw_pages_from idx extracted))
  /\ Forall (fun p => Z.of_nat idx + 1 <= page_number p <= Z.of_nat idx + len extracted
                      /\ trimmed (text p))
       (raw_pages_from idx extracted).
Proof.
  revert idx. induction extracted as [|t rest IH]; intros idx.
  - split; constructor.
  - destruct (IH (S idx)) as [Hs Hf]. unfold len in *. simpl. split.
    + constructor; [exact Hs|]. apply Forall_map.
      eapply Forall_impl; [exact Hf|]. intros p [Hp _]. simpl. lia.
    + constructor.
      * simpl. split; [lia | apply strip_trimmed].
      * eapply Forall_impl; [exact Hf|]. intros p [Hp Ht]. split; [lia | exact Ht].
Qed.

Lemma raw_page_numbers (idx : nat) (extracted : list (option str)) :
  map page_number (raw_pages_from idx extracted)
  = map (fun i => Z.of_nat i) (seq (S idx) (length extracted)).
Proof.
  revert idx. induction extracted as [|t rest IH]; intros idx; [reflexivity|].
  simpl. rewrite IH. f_equal. lia.
Qed.

(** The raw pages of lines 55-64: one per page of the file, numbered from
    1 in file order, each with the stripped text of its page, and the empty
    text where the page gave none. *)
Theorem raw_pages_numbered (extracted : list (option str)) :
  length (raw_pages_from 0 extracted) = length extracted
  /\ map page_number (raw_pages_from 0 extracted)
     = map (fun i => Z.of_nat i) (seq 1 (length extracted))
  /\ (forall (i : nat) t, extracted !! i = Some t ->
        raw_pages_from 0 extracted !! i
        = Some (Page (Z.of_nat i + 1) (strip (default [] t)))).
Proof.
  split; [|split].
  - rewrite raw_pages_from_spec. apply length_imap.
  - apply raw_page_numbers.
  - intros i t Hi. rewrite raw_pages_from_spec, list_lookup_imap, Hi. reflexivity.
Qed.

Lemma sublist_StronglySorted {A} (R : A -> A -> Prop) (l1 l2 : list A) :
  l1 `sublist_of` l2 -> StronglySorted R l2 -> StronglySorted R l1.
Proof.
  induction 1 as [|x l1 l2 Hsub IH|x l1 l2 Hsub IH]; intros Hs.
  - constructor.
  - apply StronglySorted_inv in Hs as [Hs Hx]. constructor; [now apply IH|].
    rewrite Forall_forall in *. intros y Hy. apply Hx. eapply elem_of_sublist; eauto.
  - apply StronglySorted_inv in Hs as [Hs _]. now apply IH.
Qed.

Lemma sublist_Forall_map {A B} (f : A -> B) (P : B -> Prop) (l1 l2 : list A) :
  map f l1 `sublist_of` map f l2 -> Forall (fun x => P (f x)) l2 ->
  Forall (fun x => P (f x)) l1.
Proof.
  intros Hsub H2. rewrite Forall_forall in *. intros x Hx.
  assert (Hin : f x ∈ map f l2).
  { eapply elem_of_sublist; [|exact Hsub]. apply list_elem_of_In, in_map.
    now apply list_elem_of_In. }
  apply list_elem_of_In, in_map_iff in Hin as (y & <- & Hy).
  apply H2. now apply list_elem_of_In.
Qed.

Lemma extract_text_by_page_some (enable : bool) (extracted : list (option str)) :
  exists out,
    extract_text_by_page enable (Some extracted) = Ok out
    /\ (out = [] <-> extracted = [])
    /\ (length out <= length extracted)%nat
    /\ StronglySorted Z.lt (map page_number out)
    /\ Forall (fun p => 1 <= page_number p <= len extracted) out
    /\ Forall (fun p => trimmed (text p)) out.
Proof.
  destruct (raw_pages_from_sorted 0 extracted) as [Hsorted Hraw].
  assert (Hlen : length (raw_pages_from 0 extracted) = length extracted)
    by (rewrite raw_pages_from_spec; apply length_imap).
  set (raw := raw_pages_from 0 extracted) in *.
  assert (Hnil : raw = [] <-> extracted = []).
  { split; intros E.
    - rewrite E in Hlen. destruct extracted; [reflexivity | discriminate].
    - subst extracted. reflexivity. }
  assert (Hrawn : Forall (fun p => 1 <= page_number p <= len extracted) raw)
    by (eapply Forall_impl; [exact Hraw|]; intros p [Hp _]; simpl in Hp; lia).
  assert (Hrawt : Forall (fun p => trimmed (text p)) raw)
    by (eapply Forall_impl; [exact Hraw|]; now intros p [_ Hp]).
  unfold extract_text_by_page, clean. fold raw.
  destruct enable; simpl negb; cbv iota.
  - destruct (filter_pages_total _is_noise_page raw) as (thr & _ & Hf).
    rewrite (preprocess_pages_eq _ _ Hf).
    set (cleaned := omap id _) in *.
    assert (Hsub : map page_number cleaned `sublist_of` map page_number raw).
    { apply sublist_omap_imap. intros i p c Hv.
      now apply verdict_Some in Hv as [-> _]. }
    assert (Htrim : Forall (fun p => trimmed (text p)) cleaned).
    { apply Forall_omap_imap. intros i p c Hv.
      apply verdict_Some in Hv as [-> _]. apply strip_trimmed. }
    destruct cleaned as [|c cleaned'] eqn:Ec.
    + eexists. split; [reflexivity|]. rewrite Hlen in *.
      repeat split; auto; try apply Hnil; lia.
    + eexists. split; [reflexivity|].
      split; [split; [discriminate|]|].
      * intros E. apply Hnil in E. rewrite E in Hsub.
        apply sublist_nil_r in Hsub. discriminate.
      * split; [|split; [|split]].
        -- apply sublist_length in Hsub. rewrite !length_map in Hsub. lia.
        -- exact (sublist_StronglySorted _ _ _ Hsub Hsorted).
        -- exact (sublist_Forall_map page_number
                    (fun n => 1 <= n <= len extracted) _ _ Hsub Hrawn).
        -- exact Htrim.
  - eexists. split; [reflexivity|]. rewrite Hlen.
    repeat split; auto; try apply Hnil; lia.
Qed.


(** * [save_pdf] *)


Lemma save_pdf_value (env : environment) (file_bytes : bytes) (filename : str)
    (fs fs' : files) (p : str) :
  save_pdf env file_bytes filename fs = (Value p, fs') ->
  p = storage_path env (uuid4 env ++ lit "_" ++ filename)
  /\ fs' = <[p := file_bytes]> fs.
Proof.
  unfold save_pdf. destruct (_ <? _); [discriminate|].
  destruct (negb (bool_decide _)); [discriminate|].
  destruct (negb (startswith _ _)); [discriminate|].
  now intros [= <- <-].
Qed.






(** * The route [upload_pdf] *)

Lemma handle_rolled_back (env : environment) (e : raised) (trace : list db_call) :
  rolled_back env (handle env e trace).1 (handle env e trace).2.
Proof.
  unfold handle, rollback_then.
  destruct (is_value_error e); destruct (db_raises env (trace ++ [Rollback])) eqn:Er;
    simpl; (split; [apply last_snoc|]); auto.
Qed.


Lemma add_pages_cases (env : environment) (pdf_path : str) (pages_data : list page)
    (trace : list db_call) (k : list db_call -> outcome * list db_call) :
  (exists e trace', add_pages env pdf_path pages_data trace k = handle env e trace')
  \/ add_pages env pdf_path pages_data trace k
     = k (trace ++ map Add_page (rows_of env pdf_path pages_data)).
Proof.
  revert trace. induction pages_data as [|pd rest IH]; intros trace.
  - right. simpl. now rewrite app_nil_r.
  - cbn [add_pages]. unfold db_do.
    set (row := MkPageRow (new_book_id env) (page_number pd) (text pd) pdf_path).
    destruct (db_raises env (trace ++ [Add_page row])) as [e|]; [left; eauto|].
    destruct (IH (trace ++ [Add_page row])) as [Hl | Hr]; [now left|].
    right. rewrite Hr. unfold rows_of. cbn [map]. fold row.
    now rewrite <- app_assoc.
Qed.

(** The session calls of lines 76-89: either one of them raised and the
    handlers took over, or all were made and the route returns. *)
Lemma session_cases (env : environment) (book : Book) (pdf_path : str)
    (pages_data : list page) (r : upload_response) :
  let chain :=
    db_do env (Add_book book) [] (fun trace =>
    db_do env Flush trace (fun trace =>
    add_pages env pdf_path pages_data trace (fun trace =>
    db_do env Commit trace (fun trace => (Returned r, trace))))) in
  (exists e trace', chain = handle env e trace')
  \/ chain = (Returned r,
              Add_book book :: Flush
              :: map Add_page (rows_of env pdf_path pages_data) ++ [Commit]).
Proof.
  intros chain. subst chain. unfold db_do. cbn [app].
  destruct (db_raises env [Add_book book]) as [e|]; [left; eauto|].
  destruct (db_raises env [Add_book book; Flush]) as [e|]; [left; eauto|].
  destruct (add_pages_cases env pdf_path pages_data [Add_book book; Flush]
              (fun trace =>
                 match db_raises env (trace ++ [Commit]) with
                 | Some e => handle env e (trace ++ [Commit])
                 | None => (Returned r, trace ++ [Commit])
                 end))
    as [Hl | ->]; [now left|].
  destruct (db_raises env _) as [e|]; [left; eauto|].
  right. reflexivity.
Qed.

Lemma extract_text_by_page_at_stored (env : environment) (fs : files) (pdf_path : str)
    (content : bytes) (pages_data : list page) :
  fs !! pdf_path = Some content ->
  extract_text_by_page_at env fs pdf_path = Value pages_data ->
  exists texts,
    pdfplumber_open env content = Value texts
    /\ extract_text_by_page (text_preprocessing env) (Some texts) = Ok pages_data.
Proof.
  intros Hfs. unfold extract_text_by_page_at. rewrite Hfs.
  destruct (pdfplumber_open env content) as [texts|e]; [|discriminate].
  destruct (extract_text_by_page _ _) as [pages|e] eqn:E; [|discriminate].
  intros [= <-]. now exists texts.
Qed.



Lemma handle_error_code (env : environment) (e : raised) (trace trace' : list db_call)
    (status_code : Z) (detail : error_body) :
  handle env e trace = (HTTPException status_code detail, trace') ->
  error_code detail = lit "VALIDATION_ERROR" \/ error_code detail = lit "UPLOAD_FAILED".
Proof.
  intros E. pose proof (handle_rolled_back env e trace) as [_ H].
  rewrite E in H. cbn in H. tauto.
Qed.


(** The answer [EMPTY_EXTRACTED_CONTENT] is given only for a file in which
    [pdfplumber] finds no page: a file with pages never comes out of the
    pipeline empty.  The request then made no session call, and the
    uploaded file stays in the store. *)
Theorem upload_pdf_empty_content (env : environment) (filename : option str)
    (content : bytes) (title author : option str) (fs fs' : files)
    (status_code : Z) (detail : error_body) (trace : list db_call) :
  upload_pdf env filename content title author fs
  = (HTTPException status_code detail, trace, fs') ->
  error_code detail = lit "EMPTY_EXTRACTED_CONTENT" ->
  status_code = 400 /\ trace = []
  /\ pdfplumber_open env content = Value []
  /\ exists name,
       filename = Some name
       /\ fs' !! storage_path env (uuid4 env ++ lit "_" ++ name) = Some content.
Proof.
  unfold upload_pdf. intros E Hcode. revert E.
  assert (Hh : forall e tr tr', handle env e tr <> (HTTPException status_code detail, tr')).
  { intros e tr tr' E. apply handle_error_code in E as [E|E];
      rewrite E in Hcode; discriminate. }
  destruct filename as [[|c name]|];
    [intros [= _ <- _ _]; discriminate | | intros [= _ <- _ _]; discriminate].
  destruct (save_pdf env content (c :: name) fs) as [[pdf_path|e] fs1] eqn:Es;
    [|intros [= E _]; now apply Hh in E].
  destruct (save_pdf_value _ _ _ _ _ _ Es) as (Hpath & Hfs1).
  assert (Hstored : fs1 !! pdf_path = Some content)
    by (rewrite Hfs1; apply lookup_insert_eq).
  destruct (extract_text_by_page_at env fs1 pdf_path) as [[|pd pages]|e] eqn:Ex;
    [| | intros [= E _]; now apply Hh in E].
  - intros [= <- <- <- <-].
    destruct (extract_text_by_page_at_stored env fs1 pdf_path content _ Hstored Ex)
      as (texts & Hopen & Hex).
    destruct (extract_text_by_page_some (text_preprocessing env) texts)
      as (out & Hout & Hnil & _).
    rewrite Hex in Hout. injection Hout as <-.
    rewrite (proj1 Hnil eq_refl) in Hopen.
    split; [reflexivity|]. split; [reflexivity|]. split; [exact Hopen|].
    exists (c :: name). split; [reflexivity|]. now rewrite <- Hpath.
  - match goal with |- context [db_do env (Add_book ?b) [] ?k] =>
      destruct (session_cases env b pdf_path (pd :: pages)
                  (UploadResponse (new_book_id env) (book_title b) (book_author b)
                     (len (pd :: pages)) pdf_path (lit "PDF uploaded and pages extracted")))
        as [(e & tr & ->) | ->]
    end; [intros [= E _]; now apply Hh in E | discriminate].
Qed.



Lemma upload_pdf_empty_content_witness :
  (example_upload []).1.2 = []
  /\ pdfplumber_open (example_env []) PDF_SIGNATURE = Value [].
Proof.
  destruct (upload_pdf_empty_content (example_env []) (Some (lit "book.pdf"))
              PDF_SIGNATURE None None ∅ (example_upload []).2 400
              (error_payload (lit "EMPTY_EXTRACTED_CONTENT")
                 (lit "No usable pages found after PDF preprocessing.")
                 (Some (lit "The document may be scanned/noisy or filtered as front matter.")))
              (example_upload []).1.2)
    as (_ & Ht & Hopen & _).
  - vm_compute. reflexivity.
  - reflexivity.
  - split; assumption.
Defined.


(** * Recurrence and page order *)

Lemma occurrences_Permutation (key_of : page -> option str) (k : str)
    (pages pages' : list page) :
  Permutation pages pages' -> occurrences key_of k pages = occurrences key_of k pages'.
Proof.
  unfold occurrences, len. intros Hp. f_equal.
  induction Hp as [|p l l' _ IH|p q l|l l' l'' _ IH1 _ IH2]; simpl.
  - reflexivity.
  - destruct (bool_decide _); simpl; now rewrite IH.
  - destruct (bool_decide (key_of q = Some k)), (bool_decide (key_of p = Some k)); reflexivity.
  - now rewrite IH1.
Qed.

(** Which lines recur does not depend on the order of the pages: two
    documents with the same pages in different orders have the same header
    and footer sets, for any threshold. *)
Theorem recurring_order_independent (pages pages' : list page) (thr : Z) :
  Permutation pages pages' ->
  recurring_headers pages thr = recurring_headers pages' thr
  /\ recurring_footers pages thr = recurring_footers pages' thr
  /\ recurring_threshold_of (length pages) = recurring_threshold_of (length pages').
Proof.
  intros Hp.
  destruct (scan_counts pages) as [Hh Hf]. destruct (scan_counts pages') as [Hh' Hf'].
  assert (He : forall key_of k, count_entry key_of k pages = count_entry key_of k pages').
  { intros key_of k. unfold count_entry.
    now rewrite (occurrences_Permutation key_of k pages pages' Hp). }
  split; [|split].
  - apply set_eq. intros k. unfold recurring_headers.
    rewrite !elem_of_recurring_keys. now setoid_rewrite Hh; setoid_rewrite Hh'; setoid_rewrite He.
  - apply set_eq. intros k. unfold recurring_footers.
    rewrite !elem_of_recurring_keys. now setoid_rewrite Hf; setoid_rewrite Hf'; setoid_rewrite He.
  - now rewrite (Permutation_length Hp).
Qed.

Lemma recurring_order_independent_witness :
  recurring_headers doc5 3 = recurring_headers (rev doc5) 3.
Proof.
  apply (recurring_order_independent doc5 (rev doc5) 3). apply Permutation_rev.
Defined.
